(** * Elastic hashing (src/main.c): a shallow embedding and its properties

    The C program keeps a fixed table of [size_t] slots, partitioned into
    sub-arrays, and inserts keys by probing them.  The embedding follows the
    source function by function:

    - [size_t] values are integers in [Z], every arithmetic result reduced
      modulo [2^64];
    - [double] values are binary64 primitive floats;
    - undefined behaviour of C (division by zero, an index outside the table,
      a [double] that does not fit the [size_t] it is cast to, a shift by 64
      bits or more) is an explicit [Fault] outcome, and the probing loop that
      has no bound runs on fuel ([Timeout] when the fuel is used up);
    - [malloc] returns storage with indeterminate contents: the construction
      takes the previous contents of the sub-array block as an argument
      ([heap]) and overwrites the entries the source loop writes. *)

From Stdlib Require Import ZArith Uint63 Floats Lia Bool.
From stdpp Require Import base list.

Set Warnings "-inexact-float".
Local Open Scope Z_scope.

(** ** Outcomes of a C computation *)

Inductive fault : Set :=
| DivByZero     (* [x % 0] *)
| OutOfBounds   (* index outside the allocated block *)
| BadCast       (* double to size_t conversion out of range *)
| BadShift.     (* shift count not below the width *)

Inductive outcome (A : Type) : Type :=
| Done (a : A)
| Fault (f : fault)
| Timeout.

Arguments Done {A} a.
Arguments Fault {A} f.
Arguments Timeout {A}.

Definition bind {A B : Type} (m : outcome A) (k : A -> outcome B) : outcome B :=
  match m with
  | Done a => k a
  | Fault f => Fault f
  | Timeout => Timeout
  end.

Notation "'do' x <- m ; k" := (bind m (fun x => k))
  (at level 10, x name, m at level 100, k at level 200).

(** ** Machine arithmetic *)

Module Num.

Definition modulus : Z := 2 ^ 64.

(** Reduction of an arithmetic result to [size_t]. *)
Definition wrap (z : Z) : Z := z mod modulus.

(** [(double) z] for a [size_t] value: round to nearest, ties to even. *)
Definition of_size_t (z : Z) : float :=
  SF2Prim (binary_normalize prec emax z 0 false).

(** Truncation toward zero of a finite float, as an integer. *)
Definition trunc_SF (x : spec_float) : option Z :=
  match x with
  | S754_zero _ => Some 0
  | S754_finite s m e =>
      let a := match e with
               | Z.neg p => Z.pos m / 2 ^ Z.pos p
               | _ => Z.pos m * 2 ^ e
               end in
      Some (if s then - a else a)
  | _ => None
  end.

(** [(size_t) x]: defined when the truncated value fits in 64 bits. *)
Definition to_size_t (x : float) : outcome Z :=
  match trunc_SF (Prim2SF x) with
  | Some z => if (0 <=? z) && (z <? modulus) then Done z else Fault BadCast
  | None => Fault BadCast
  end.

(** [(size_t) ceil (x)]. *)
Definition ceil_SF (x : spec_float) : option Z :=
  match x with
  | S754_zero _ => Some 0
  | S754_finite s m e =>
      match e with
      | Z.neg p =>
          let d := 2 ^ Z.pos p in
          Some (if s then - (Z.pos m / d) else - ((- Z.pos m) / d))
      | _ => Some (if s then - (Z.pos m * 2 ^ e) else Z.pos m * 2 ^ e)
      end
  | _ => None
  end.

Definition ceil_to_size_t (x : float) : outcome Z :=
  match ceil_SF (Prim2SF x) with
  | Some z => if (0 <=? z) && (z <? modulus) then Done z else Fault BadCast
  | None => Fault BadCast
  end.

(** [fmin]: a NaN argument is treated as missing data. *)
Definition fmin (x y : float) : float :=
  if PrimFloat.is_nan x then y
  else if PrimFloat.is_nan y then x
  else if PrimFloat.ltb y x then y else x.

(** [x % y] on [size_t]. *)
Definition umod (x y : Z) : outcome Z :=
  if y =? 0 then Fault DivByZero else Done (x mod y).

(** [x << s] on [size_t]. *)
Definition shl (x s : Z) : outcome Z :=
  if s <? 64 then Done (wrap (Z.shiftl x s)) else Fault BadShift.

End Num.

(** ** The C library's [log2]

    [log2] comes from <math.h>, not from the repository.  The program is
    embedded over an arbitrary [log2 : float -> float]; the concrete runs use
    the binary64 implementation below: exact on powers of two, and elsewhere
    the exponent plus a series for the logarithm of the mantissa. *)

Module Libm.

Definition inv_ln2 : float := 1.4426950408889634%float.
Definition sqrt_half : float := 0.70710678118654757%float.

(** [1 + u/3 + u^2/5 + ...] up to [u^13/27], by Horner's rule. *)
Definition atanh_coeffs : list float :=
  [ (1 / 27); (1 / 25); (1 / 23); (1 / 21); (1 / 19); (1 / 17); (1 / 15);
    (1 / 13); (1 / 11); (1 / 9); (1 / 7); (1 / 5); (1 / 3); 1 ]%float.

Definition atanh_poly (u : float) : float :=
  fold_left (fun acc c => (c + u * acc)%float) atanh_coeffs 0%float.

Definition log2 (x : float) : float :=
  if PrimFloat.is_nan x then nan
  else if PrimFloat.ltb x 0 then nan
  else if PrimFloat.eqb x 0 then neg_infinity
  else if PrimFloat.is_infinity x then infinity
  else
    let (m, e) := PrimFloat.frshiftexp x in
    let (y, ex) := if PrimFloat.ltb sqrt_half m
                   then (m, e) else ((2 * m)%float, PrimInt63.sub e 1%uint63) in
    let t := ((y - 1) / (y + 1))%float in
    let l := (2 * t * atanh_poly (t * t) * inv_ln2)%float in
    (PrimFloat.of_uint63 ex - PrimFloat.of_uint63 (Uint63.of_Z FloatOps.shift)
     + l)%float.

End Libm.

(** ** Data model (src/main.c, lines 8-30) *)

Record SubArray : Type := mkSubArray {
  start : Z;
  size : Z;
  filled_slots : Z;
  epsilon : float
}.

Record Batch : Type := mkBatch {
  start_index : Z;
  batch_size : Z;      (* [Batch.size] *)
  current : Z
}.

Record ElasticHash : Type := mkElasticHash {
  table : list Z;
  n : Z;
  delta : float;
  items : Z;
  arrays : list SubArray;
  num_arrays : Z;
  current_batch : Batch;
  beta : Z
}.

Definition set_epsilon (a : SubArray) (e : float) : SubArray :=
  mkSubArray (start a) (size a) (filled_slots a) e.

Definition incr_filled (a : SubArray) : SubArray :=
  mkSubArray (start a) (size a) (Num.wrap (filled_slots a + 1)) (epsilon a).

Definition with_arrays (eh : ElasticHash) (l : list SubArray) : ElasticHash :=
  mkElasticHash (table eh) (n eh) (delta eh) (items eh) l (num_arrays eh)
                (current_batch eh) (beta eh).

Definition with_batch (eh : ElasticHash) (b : Batch) : ElasticHash :=
  mkElasticHash (table eh) (n eh) (delta eh) (items eh) (arrays eh)
                (num_arrays eh) b (beta eh).

(** [eh->arrays[i]], inside the allocated block. *)
Definition get_array (eh : ElasticHash) (i : Z) : outcome SubArray :=
  match arrays eh !! Z.to_nat i with
  | Some a => Done a
  | None => Fault OutOfBounds
  end.

(** [eh->table[pos]]. *)
Definition table_get (eh : ElasticHash) (pos : Z) : outcome Z :=
  match table eh !! Z.to_nat pos with
  | Some v => Done v
  | None => Fault OutOfBounds
  end.

(** The three stores made before [return true] (lines 136-138, 158-160). *)
Definition place (eh : ElasticHash) (i pos key : Z) : ElasticHash :=
  mkElasticHash
    (<[Z.to_nat pos := key]> (table eh))
    (n eh) (delta eh)
    (Num.wrap (items eh + 1))
    (alter incr_filled (Z.to_nat i) (arrays eh))
    (num_arrays eh) (current_batch eh) (beta eh).

(** ** The program *)

Section Program.

(** [log2] of the C library. *)
Variable log2 : float -> float.

(** *** phi (lines 33-48) *)

(** The [while (j > 0)] loop; [j < 2^64] halves to [0] within 64 rounds. *)
Fixpoint interleave (rounds : nat) (result j : Z) : Z :=
  match rounds with
  | O => result
  | S r =>
      if 0 <? j
      then interleave r
             (Z.lor (Z.lor (Num.wrap (Z.shiftl result 2))
                           (Num.wrap (Z.shiftl (Z.land j 1) 1))) 1)
             (Z.shiftr j 1)
      else result
  end.

Definition phi (i j : Z) : outcome Z :=
  let result := interleave 64 1 j in
  let result := Num.wrap (Z.shiftl result 1) in
  do s <- Num.to_size_t (log2 (Num.of_size_t (Num.wrap (i + 1))));
  do shifted <- Num.shl result s;
  Done (Z.lor shifted i).

(** *** elastic_hash_init (lines 50-100) *)

(** The sizing loop, lines 78-93, for the [k] indices from [i] on.  It
    returns the block and the number of entries it has written. *)
Fixpoint init_loop (k : nat) (beta_ : Z) (i : nat) (remaining start_ : Z)
    (block : list SubArray) : outcome (list SubArray * nat) :=
  match k with
  | O => Done (block, i)
  | S k' =>
      let ai := Num.wrap (remaining * 3) / 4 in
      let ai := if ai <? beta_ then beta_ else ai in
      do r <- Num.umod ai beta_;
      let sz := ai - r in
      let block := <[i := mkSubArray start_ sz 0 1%float]> block in
      let start_ := Num.wrap (start_ + sz) in
      let remaining := Num.wrap (remaining - sz) in
      if remaining <? beta_ then Done (block, S i)
      else init_loop k' beta_ (S i) remaining start_ block
  end.

Definition beta_of (delta_ : float) : outcome Z :=
  Num.to_size_t (2 * log2 (1 / delta_))%float.

Definition num_arrays_of (delta_ : float) : outcome Z :=
  Num.ceil_to_size_t (4 * log2 (1 / delta_) + 10)%float.

(** [heap i] is what the block returned by [malloc] held at entry [i]. *)
Definition init_arrays (heap : nat -> SubArray) (n_ : Z) (delta_ : float)
    : outcome (list SubArray * nat) :=
  do b <- beta_of delta_;
  do na <- num_arrays_of delta_;
  init_loop (Z.to_nat na) b 0 n_ 0 (map heap (seq 0 (Z.to_nat na))).

Definition elastic_hash_init (heap : nat -> SubArray) (n_ : Z) (delta_ : float)
    : outcome ElasticHash :=
  do b <- beta_of delta_;
  do na <- num_arrays_of delta_;
  do arrs <- init_loop (Z.to_nat na) b 0 n_ 0 (map heap (seq 0 (Z.to_nat na)));
  match fst arrs !! 0%nat with
  | None => Fault OutOfBounds
  | Some a0 =>
      do bs <- Num.to_size_t (0.75 * Num.of_size_t (size a0))%float;
      Done (mkElasticHash (replicate (Z.to_nat n_) 0) n_ delta_ 0 (fst arrs) na
                          (mkBatch 0 bs 0) b)
  end.

(** *** probe_sequence (lines 103-108) *)

Definition probe_sequence (eh : ElasticHash) (key i j : Z) : outcome Z :=
  do h <- phi i j;
  let hash := Z.lxor h key in
  do a <- get_array eh i;
  do r <- Num.umod hash (size a);
  Done (Num.wrap (start a + r)).

(** *** compute_f (lines 111-115) *)

Definition compute_f (epsilon_ delta_ : float) : outcome Z :=
  let log_eps := log2 (1 / epsilon_)%float in
  let log_delta := log2 (1 / delta_)%float in
  Num.to_size_t (4 * Num.fmin (log_eps * log_eps) log_delta)%float.

(** *** elastic_hash_insert (lines 117-179) *)

(** [eh->items >= eh->n * (1 - eh->delta)], line 118. *)
Definition at_capacity (eh : ElasticHash) : bool :=
  PrimFloat.leb (Num.of_size_t (n eh) * (1 - delta eh))%float
                (Num.of_size_t (items eh)).

(** The probing loop of case 1, lines 133-141: [cnt] attempts from [j].
    [Some eh'] is the state at [return true]. *)
Fixpoint probe_bounded (cnt : nat) (eh : ElasticHash) (key i j : Z)
    : outcome (option ElasticHash) :=
  match cnt with
  | O => Done None
  | S c =>
      do pos <- probe_sequence eh key i j;
      do v <- table_get eh pos;
      if v =? 0 then Done (Some (place eh i pos key))
      else probe_bounded c eh key i (j + 1)
  end.

(** The probing loop of case 3, lines 155-163: no bound in the source. *)
Fixpoint probe_unbounded (fuel : nat) (eh : ElasticHash) (key i j : Z)
    : outcome ElasticHash :=
  match fuel with
  | O => Timeout
  | S f =>
      do pos <- probe_sequence eh key i j;
      do v <- table_get eh pos;
      if v =? 0 then Done (place eh i pos key)
      else probe_unbounded f eh key i (Num.wrap (j + 1))
  end.

(** The body of the [for] loop, lines 125-164, for the index [i].
    [unbounded] is the probing loop of case 3 and [continue] the rest of the
    [for] loop.  The boolean is [true] at [return true]. *)
Definition insert_body
    (unbounded : ElasticHash -> Z -> Z -> outcome ElasticHash)
    (continue : ElasticHash -> outcome (bool * ElasticHash))
    (eh : ElasticHash) (key i : Z) : outcome (bool * ElasticHash) :=
  do cur <- get_array eh i;
  let eps := (1 - Num.of_size_t (filled_slots cur)
                  / Num.of_size_t (size cur))%float in
  let eh := with_arrays eh
              (alter (fun a => set_epsilon a eps) (Z.to_nat i) (arrays eh)) in
  (* case 1 *)
  do c1 <- (if (i <? Num.wrap (num_arrays eh - 1))
               && PrimFloat.ltb (delta eh / 2)%float eps
            then do nx <- get_array eh (i + 1);
                 Done (PrimFloat.ltb 0.25%float (epsilon nx))
            else Done false);
  if c1 then
    do f_eps <- compute_f eps (delta eh);
    do r <- probe_bounded (Z.to_nat f_eps) eh key i 0;
    match r with
    | Some eh' => Done (true, eh')
    | None => continue eh
    end
  else
    (* case 2 *)
    if PrimFloat.leb eps (delta eh / 2)%float && (i + 1 <? num_arrays eh)
    then continue eh
    else
      (* case 3 *)
      do c3 <- (if i + 1 <? num_arrays eh
                then do nx <- get_array eh (i + 1);
                     Done (PrimFloat.leb (epsilon nx) 0.25%float)
                else Done false);
      if c3 then
        do eh' <- unbounded eh key i;
        Done (true, eh')
      else continue eh.

(** The [for] loop of lines 124-165 for the [k] indices from [i] on; [false]
    when the loop ends. *)
Fixpoint insert_loop (fuel k : nat) (eh : ElasticHash) (key i : Z)
    : outcome (bool * ElasticHash) :=
  match k with
  | O => Done (false, eh)
  | S k' =>
      insert_body (fun eh' key' i' => probe_unbounded fuel eh' key' i' 0)
                  (fun eh' => insert_loop fuel k' eh' key (i + 1))
                  eh key i
  end.

(** [(size_t)log2(eh->current_batch.start_index + 1)], lines 121 and 169. *)
Definition batch_index (eh : ElasticHash) : outcome Z :=
  Num.to_size_t
    (log2 (Num.of_size_t (Num.wrap (start_index (current_batch eh) + 1)))).

(** Lines 167-176. *)
Definition advance_batch (eh : ElasticHash) : outcome ElasticHash :=
  let b := current_batch eh in
  let cur := Num.wrap (current b + 1) in
  if batch_size b <=? cur then
    do i <- batch_index eh;
    if Num.wrap (i + 1) <? num_arrays eh then
      do nx <- get_array eh (Num.wrap (i + 1));
      do q <- Num.to_size_t (0.75 * Num.of_size_t (size nx))%float;
      Done (with_batch eh
              (mkBatch (Num.wrap (start_index b + batch_size b))
                       (Num.wrap (size nx - q)) 0))
    else Done (with_batch eh (mkBatch (start_index b) (batch_size b) cur))
  else Done (with_batch eh (mkBatch (start_index b) (batch_size b) cur)).

Definition elastic_hash_insert (fuel : nat) (eh : ElasticHash) (key : Z)
    : outcome (bool * ElasticHash) :=
  if at_capacity eh then Done (false, eh)
  else
    do batch_i <- batch_index eh;
    do r <- insert_loop fuel (Z.to_nat (num_arrays eh - batch_i)) eh key batch_i;
    if fst r then Done (true, snd r)
    else do eh' <- advance_batch (snd r); Done (false, eh').

(** *** elastic_hash_search (lines 181-196) *)

(** [(ssize_t) pos]. *)
Definition to_ssize_t (pos : Z) : Z :=
  if pos <? 2 ^ 63 then pos else pos - Num.modulus.

(** The inner loop, lines 186-193: [Some p] at [return (ssize_t)pos],
    [None] when it breaks or runs out. *)
Fixpoint search_probe (cnt : nat) (eh : ElasticHash) (key i j : Z)
    : outcome (option Z) :=
  match cnt with
  | O => Done None
  | S c =>
      do pos <- probe_sequence eh key i j;
      do v <- table_get eh pos;
      if v =? key then Done (Some (to_ssize_t pos))
      else if v =? 0 then Done None
      else search_probe c eh key i (j + 1)
  end.

Fixpoint search_loop (k : nat) (eh : ElasticHash) (key i : Z) : outcome Z :=
  match k with
  | O => Done (-1)
  | S k' =>
      do cur <- get_array eh i;
      do f_eps <- compute_f (epsilon cur) (delta eh);
      do r <- search_probe (Z.to_nat f_eps) eh key i 0;
      match r with
      | Some p => Done p
      | None => search_loop k' eh key (i + 1)
      end
  end.

Definition elastic_hash_search (eh : ElasticHash) (key : Z) : outcome Z :=
  search_loop (Z.to_nat (num_arrays eh)) eh key 0.

(** *** Sequences of calls *)

(** Successive [insert] calls for [keys]; the results in call order. *)
Fixpoint insert_all (fuel : nat) (eh : ElasticHash) (keys : list Z)
    : outcome (list bool * ElasticHash) :=
  match keys with
  | [] => Done ([], eh)
  | key :: rest =>
      do r <- elastic_hash_insert fuel eh key;
      do rs <- insert_all fuel (snd r) rest;
      Done (fst r :: fst rs, snd rs)
  end.

(** Construction followed by the inserts. *)
Definition build (heap : nat -> SubArray) (n_ : Z) (delta_ : float)
    (fuel : nat) (keys : list Z) : outcome (list bool * ElasticHash) :=
  do eh <- elastic_hash_init heap n_ delta_;
  insert_all fuel eh keys.

End Program.

(** ** Contents of the heap before construction *)

(** Storage that reads as zero, as fresh pages do. *)
Definition zero_heap : nat -> SubArray := fun _ => mkSubArray 0 0 0 0%float.

(** Storage recycled from an earlier table: entries that still read as an
    empty one-slot sub-array. *)
Definition stale_heap : nat -> SubArray := fun _ => mkSubArray 0 1 0 1%float.

(** Recycled storage in which entry 4 still reads as a full sub-array over
    the four slots from 1020 on, and the others as in [stale_heap]. *)
Definition mixed_heap : nat -> SubArray :=
  fun i => if Nat.eqb i 4 then mkSubArray 1020 4 4 0%float else stale_heap i.

Definition keys_from (first : Z) (cnt : nat) : list Z :=
  map (fun k => first + Z.of_nat k) (seq 0 cnt).

(** ** Relations between the state before and after a call *)

(** Everything but the stored epsilons is the same. *)
Definition same_but_epsilon (eh eh' : ElasticHash) : Prop :=
  table eh' = table eh /\ n eh' = n eh /\ delta eh' = delta eh /\
  items eh' = items eh /\ num_arrays eh' = num_arrays eh /\
  beta eh' = beta eh /\ current_batch eh' = current_batch eh /\
  map start (arrays eh') = map start (arrays eh) /\
  map size (arrays eh') = map size (arrays eh) /\
  map filled_slots (arrays eh') = map filled_slots (arrays eh).

(** The slots and the counters of stored keys are the same. *)
Definition same_store (eh eh' : ElasticHash) : Prop :=
  table eh' = table eh /\ items eh' = items eh /\
  map filled_slots (arrays eh') = map filled_slots (arrays eh).

(** ** The partition, without machine arithmetic *)

(** Size of the sub-array cut from [remaining] slots: three quarters, at
    least [b], rounded down to a multiple of [b] (lines 79-84). *)
Definition cut_size (b remaining : Z) : Z :=
  let ai := Z.max (remaining * 3 / 4) b in
  ai - ai mod b.

(** The entries written by at most [k] rounds of the sizing loop. *)
Fixpoint partition (k : nat) (b remaining start_ : Z) : list SubArray :=
  match k with
  | O => []
  | S k' =>
      let sz := cut_size b remaining in
      mkSubArray start_ sz 0 1%float
      :: (if remaining - sz <? b then []
          else partition k' b (remaining - sz) (start_ + sz))
  end.

(** Each size is below the one before it, or both are [b]. *)
Fixpoint descending (b : Z) (sizes : list Z) : Prop :=
  match sizes with
  | s :: ((s' :: _) as rest) =>
      (s' < s \/ (s' = s /\ s = b)) /\ descending b rest
  | _ => True
  end.

(** The regions follow one another from [start_] on. *)
Fixpoint contiguous (start_ : Z) (parts : list SubArray) : Prop :=
  match parts with
  | [] => True
  | a :: rest => start a = start_ /\ contiguous (start_ + size a) rest
  end.

Definition total_size (parts : list SubArray) : Z :=
  fold_right Z.add 0 (map size parts).

(** ** The capacity test and the batch, as predicates *)

(** The test of line 118 lets a table of capacity [n_] and slack [delta_]
    holding [m] items go on: [m >= n_ * (1 - delta_)] is false. *)
Definition below_capacity (n_ : Z) (delta_ : float) (m : Z) : Prop :=
  PrimFloat.leb (Num.of_size_t n_ * (1 - delta_))%float (Num.of_size_t m)
  = false.

(** Number of calls that returned [true]. *)
Definition stored (results : list bool) : Z :=
  fold_right (fun (b : bool) acc => if b then acc + 1 else acc) 0 results.

(** ** What a probe finds, and what every call keeps *)

Section Predicates.

Variable log2 : float -> float.

(** Sub-array [i] exists and search allows it [f] probes. *)
Definition probe_budget (eh : ElasticHash) (i f : Z) : Prop :=
  exists cur, get_array eh i = Done cur /\
              compute_f log2 (epsilon cur) (delta eh) = Done f.

(** Probe [j] of [key] in sub-array [i] lands on a slot that holds a key. *)
Definition probes_occupied (eh : ElasticHash) (key i j : Z) : Prop :=
  exists p v, probe_sequence log2 eh key i j = Done p /\
              table_get eh p = Done v /\ v <> 0.

(** Probe [j] of [key] in sub-array [i] lands on the empty slot [p]. *)
Definition probes_empty (eh : ElasticHash) (key i j p : Z) : Prop :=
  probe_sequence log2 eh key i j = Done p /\ table_get eh p = Done 0.

(** Kept by every call: the item count is 0 or its predecessor passed the
    capacity test. *)
Definition capacity_invariant (n_ : Z) (delta_ : float) (eh : ElasticHash)
    : Prop :=
  n eh = n_ /\ delta eh = delta_ /\
  0 <= items eh < Num.modulus /\
  (items eh = 0 \/ below_capacity n_ delta_ (items eh - 1)).

(** Kept by every call: [current] is 0, or below [size], or no next
    sub-array remains for the batch. *)
Definition batch_invariant (eh : ElasticHash) : Prop :=
  let b := current_batch eh in
  0 <= batch_size b /\ 0 <= current b /\
  (current b = 0 \/ current b < batch_size b \/
   exists i, batch_index log2 eh = Done i /\
             num_arrays eh <= Num.wrap (i + 1)).

End Predicates.

(** ** States used as examples *)

Definition no_table : ElasticHash :=
  mkElasticHash [] 0 0 0 [] 0 (mkBatch 0 0 0) 0.

Definition final_state (r : outcome (list bool * ElasticHash)) : ElasticHash :=
  match r with
  | Done (_, eh) => eh
  | _ => no_table
  end.

(** Capacity 1024, slack 0.1 on recycled storage: the table as constructed,
    and after one [insert] call. *)
Definition stale_table : ElasticHash :=
  Eval vm_compute in
    final_state (build Libm.log2 stale_heap 1024 0.1 0 []).

Definition stale_table_1 : ElasticHash :=
  Eval vm_compute in
    final_state (build Libm.log2 stale_heap 1024 0.1 0 [1]).

(** [floor (n * (1 - delta))], with the product the way line 118 computes
    it. *)
Definition capacity_floor (n_ : Z) (delta_ : float) : outcome Z :=
  Num.to_size_t (Num.of_size_t n_ * (1 - delta_))%float.

(** Capacity 8, slack 0.5 on zeroed storage, after [insert] of the key 1. *)
Definition tiny_table_1 : ElasticHash :=
  Eval vm_compute in
    final_state (build Libm.log2 zero_heap 8 0.5 1 [1]).

(** Capacity 1024, slack 0.1 on zeroed storage: the table as constructed,
    after [insert] of the key 1, and after the keys 1 to 922. *)
Definition zero_table : ElasticHash :=
  Eval vm_compute in
    final_state (build Libm.log2 zero_heap 1024 0.1 0 []).

Definition zero_table_1 : ElasticHash :=
  Eval vm_compute in
    final_state (build Libm.log2 zero_heap 1024 0.1 1 [1]).

Definition full_table : ElasticHash :=
  Eval vm_compute in
    final_state (build Libm.log2 zero_heap 1024 0.1 5000 (keys_from 1 922)).

(** Capacity 8, slack 0.5 on recycled storage, after three and after four
    [insert] calls. *)
Definition stale_small_3 : ElasticHash :=
  Eval vm_compute in
    final_state (build Libm.log2 stale_heap 8 0.5 0 [1; 2; 3]).

Definition stale_small_4 : ElasticHash :=
  Eval vm_compute in
    final_state (build Libm.log2 stale_heap 8 0.5 0 [1; 2; 3; 4]).

(** Capacity 1024, slack 0.1 on zeroed storage, after [insert] of the
    key 0. *)
Definition zero_table_0 : ElasticHash :=
  Eval vm_compute in
    final_state (build Libm.log2 zero_heap 1024 0.1 1 [0]).

(** The demonstration of [main]: capacity 1024, slack 0.1, keys 1 to 900,
    on storage that reads as zero. *)
Definition demo_table : ElasticHash :=
  Eval vm_compute in
    final_state (build Libm.log2 zero_heap 1024 0.1 5000 (keys_from 1 900)).

(** The demonstration on [mixed_heap]. *)
Definition mixed_table : ElasticHash :=
  Eval vm_compute in
    final_state (build Libm.log2 mixed_heap 1024 0.1 5000 (keys_from 1 900)).

(** The table of the demonstration after one more [insert], of the
    key 1004. *)
Definition demo_table_1004 : ElasticHash :=
  Eval vm_compute in
    final_state (insert_all Libm.log2 50 demo_table [1004]).

(** ** What search meets in a sub-array *)

Section SearchPredicates.

Variable log2 : float -> float.

(** Probe [j] of [key] in sub-array [i] lands on a slot that holds another
    key. *)
Definition probes_other (eh : ElasticHash) (key i j : Z) : Prop :=
  exists p v, probe_sequence log2 eh key i j = Done p /\
              table_get eh p = Done v /\ v <> key /\ v <> 0.

(** Probe [j] of [key] in sub-array [i] lands on slot [p], which holds
    [key]. *)
Definition probes_key (eh : ElasticHash) (key i j p : Z) : Prop :=
  probe_sequence log2 eh key i j = Done p /\ table_get eh p = Done key.

(** Search leaves sub-array [i] without a result: its probes meet other keys
    until the budget is used up or, for a key other than 0, until one lands
    on an empty slot. *)
Definition gives_up (eh : ElasticHash) (key i : Z) : Prop :=
  exists f m,
    probe_budget log2 eh i f /\ 0 <= m <= f /\
    (forall j, 0 <= j < m -> probes_other eh key i j) /\
    (m = f \/ (key <> 0 /\ exists p, probes_empty log2 eh key i m p)).

End SearchPredicates.

(** ** Counting the stored keys *)

(** Number of slots that hold a key. *)
Definition occupied (slots : list Z) : Z :=
  fold_right (fun v acc => if v =? 0 then acc else acc + 1) 0 slots.

(** ** Sub-arrays that hold nothing *)

(** A sub-array entry as the construction writes it: the stored epsilon is 1
    and so is the one recomputed from its counters (line 126). *)
Definition untouched (a : SubArray) : Prop :=
  epsilon a = 1%float /\
  (1 - Num.of_size_t (filled_slots a) / Num.of_size_t (size a))%float
  = 1%float.

(** ** The interleaving of [phi], without machine arithmetic *)

(** The loop of lines 37-40 on integers: each round takes the low bit [b]
    of [j] and appends the two bits [b 1] to [result]. *)
Fixpoint weave (rounds : nat) (result j : Z) : Z :=
  match rounds with
  | O => result
  | S r =>
      if 0 <? j then weave r (4 * result + 2 * (j mod 2) + 1) (j / 2)
      else result
  end.

(** ** The demonstration program and the life of a table *)

(** The two lines [main] can print (lines 214 and 222). *)
Inductive printed : Set :=
| Insertion_failed_at (i : Z)
| Found_key_42_at_position (pos : Z).

(** The three blocks a table is made of (lines 51, 60, 68). *)
Inductive block : Set := Handle | Table | Arrays.

Definition block_eqb (x y : block) : bool :=
  match x, y with
  | Handle, Handle | Table, Table | Arrays, Arrays => true
  | _, _ => false
  end.

(** [free]: the block leaves the list of live blocks. *)
Fixpoint free (b : block) (live : list block) : list block :=
  match live with
  | [] => []
  | x :: rest => if block_eqb x b then rest else x :: free b rest
  end.

(** elastic_hash_destroy (lines 198-204); [None] is the null handle. *)
Definition elastic_hash_destroy (eh : option ElasticHash) (live : list block)
    : list block :=
  match eh with
  | Some _ => free Handle (free Arrays (free Table live))
  | None => live
  end.

Section Main.

Variable log2 : float -> float.

(** elastic_hash_init with its allocations (lines 51-73): [ok_handle],
    [ok_table] and [ok_arrays] tell whether the three allocation calls
    succeed, in the order of the source; [None] is [return NULL]. *)
Definition elastic_hash_init_alloc (ok_handle ok_table ok_arrays : bool)
    (heap : nat -> SubArray) (n_ : Z) (delta_ : float) (live : list block)
    : outcome (option ElasticHash * list block) :=
  if negb ok_handle then Done (None, live)
  else
    let live := Handle :: live in
    do b <- beta_of log2 delta_;
    if negb ok_table then Done (None, free Handle live)
    else
      let live := Table :: live in
      do na <- num_arrays_of log2 delta_;
      if negb ok_arrays then Done (None, free Handle (free Table live))
      else
        let live := Arrays :: live in
        do arrs <- init_loop (Z.to_nat na) b 0 n_ 0
                     (map heap (seq 0 (Z.to_nat na)));
        match fst arrs !! 0%nat with
        | None => Fault OutOfBounds
        | Some a0 =>
            do bs <- Num.to_size_t (0.75 * Num.of_size_t (size a0))%float;
            Done (Some (mkElasticHash (replicate (Z.to_nat n_) 0) n_ delta_ 0
                                      (fst arrs) na (mkBatch 0 bs 0) b),
                  live)
        end.

(** The loop of [main], lines 212-217, for the [cnt] keys from [i] on. *)
Fixpoint main_loop (cnt fuel : nat) (eh : ElasticHash) (i : Z)
    : outcome (list printed * ElasticHash) :=
  match cnt with
  | O => Done ([], eh)
  | S c =>
      do r <- elastic_hash_insert log2 fuel eh i;
      if fst r then main_loop c fuel (snd r) (i + 1)
      else Done ([Insertion_failed_at i], snd r)
  end.

(** [main], lines 207-227, up to the call of destroy, when the allocations
    of the construction succeed: what it prints and the table it leaves. *)
Definition main_run (heap : nat -> SubArray) (fuel : nat)
    : outcome (list printed * ElasticHash) :=
  do eh <- elastic_hash_init log2 heap 1024 0.1;
  do r <- main_loop 900 fuel eh 1;
  do pos <- elastic_hash_search log2 (snd r) 42;
  Done (fst r ++ (if 0 <=? pos then [Found_key_42_at_position pos] else []),
        snd r).

End Main.

(** * Properties *)

Lemma bind_Done {A B : Type} (m : outcome A) (k : A -> outcome B) (b : B) :
  bind m k = Done b -> exists a, m = Done a /\ k a = Done b.
Proof. destruct m as [a| |]; simpl; intros H; try discriminate; eauto. Qed.

Ltac bind_inv H :=
  let a := fresh "a" in
  let Ha := fresh "Ha" in
  apply bind_Done in H; destruct H as (a & Ha & H).

Ltac break_if H :=
  match type of H with
  | context [if ?c then _ else _] => destruct c eqn:?
  end.

(** *** Reduction modulo 2^64 *)

Lemma wrap_small z : 0 <= z < Num.modulus -> Num.wrap z = z.
Proof. intros H. unfold Num.wrap. now apply Z.mod_small. Qed.

Section Properties.

Variable log2 : float -> float.

Lemma same_but_epsilon_refl eh : same_but_epsilon eh eh.
Proof. repeat split. Qed.

Lemma same_but_epsilon_trans eh1 eh2 eh3 :
  same_but_epsilon eh1 eh2 -> same_but_epsilon eh2 eh3 ->
  same_but_epsilon eh1 eh3.
Proof.
  unfold same_but_epsilon; intros H1 H2.
  destruct H1 as (? & ? & ? & ? & ? & ? & ? & ? & ? & ?).
  destruct H2 as (? & ? & ? & ? & ? & ? & ? & ? & ? & ?).
  repeat split; congruence.
Qed.

Lemma map_alter_fixed {B : Type} (g : SubArray -> B) (h : SubArray -> SubArray)
    (l : list SubArray) (i : nat) :
  (forall a, g (h a) = g a) -> map g (alter h i l) = map g l.
Proof.
  intros Hg; revert i; induction l as [|a l IH]; intros [|i]; cbn;
    try reflexivity.
  - now rewrite Hg.
  - f_equal. apply IH.
Qed.

Lemma set_epsilon_same eh i e :
  same_but_epsilon eh
    (with_arrays eh (alter (fun a => set_epsilon a e) i (arrays eh))).
Proof.
  unfold same_but_epsilon, with_arrays; simpl.
  repeat split; apply map_alter_fixed; reflexivity.
Qed.

Lemma probe_bounded_Some cnt eh key i j eh' :
  probe_bounded log2 cnt eh key i j = Done (Some eh') ->
  exists pos, eh' = place eh i pos key /\ table_get eh pos = Done 0.
Proof.
  revert j; induction cnt as [|c IH]; simpl; intros j H; try discriminate.
  bind_inv H. bind_inv H. break_if H.
  - injection H as <-. exists a. split; [reflexivity|].
    apply Z.eqb_eq in Heqb. now subst.
  - eauto.
Qed.

Lemma probe_unbounded_Done fuel eh key i j eh' :
  probe_unbounded log2 fuel eh key i j = Done eh' ->
  exists pos, eh' = place eh i pos key /\ table_get eh pos = Done 0.
Proof.
  revert j; induction fuel as [|c IH]; simpl; intros j H; try discriminate.
  bind_inv H. bind_inv H. break_if H.
  - injection H as <-. exists a. split; [reflexivity|].
    apply Z.eqb_eq in Heqb. now subst.
  - eauto.
Qed.

(** The loop of [insert] stores nothing unless it returns [true]. *)
Lemma insert_loop_false fuel k eh key i eh' :
  insert_loop log2 fuel k eh key i = Done (false, eh') ->
  same_but_epsilon eh eh'.
Proof.
  revert eh i; induction k as [|k IH]; simpl; intros eh i H.
  - injection H as <-. apply same_but_epsilon_refl.
  - unfold insert_body in H. bind_inv H.
    match type of H with
    | context [with_arrays eh ?l] =>
        assert (Hs : same_but_epsilon eh (with_arrays eh l))
          by apply set_epsilon_same;
        remember (with_arrays eh l) as eh1 eqn:E; clear E
    end.
    bind_inv H. destruct a0.
    + bind_inv H. bind_inv H. destruct a1 as [eh2|].
      * discriminate.
      * eapply same_but_epsilon_trans; eauto.
    + break_if H.
      * eapply same_but_epsilon_trans; eauto.
      * bind_inv H. destruct a0.
        -- bind_inv H. discriminate.
        -- eapply same_but_epsilon_trans; eauto.
Qed.

Lemma advance_batch_same_store eh eh' :
  advance_batch log2 eh = Done eh' ->
  table eh' = table eh /\ n eh' = n eh /\ delta eh' = delta eh /\
  items eh' = items eh /\ num_arrays eh' = num_arrays eh /\
  beta eh' = beta eh /\ arrays eh' = arrays eh.
Proof.
  unfold advance_batch; intros H.
  break_if H; [|injection H as <-; repeat split].
  bind_inv H. break_if H; [|injection H as <-; repeat split].
  bind_inv H. bind_inv H. injection H as <-. repeat split.
Qed.

(** C9. When [insert] returns [false], no table slot, no [filled_slots]
    counter and not the [items] counter has changed (nor have the sizes and
    offsets of the sub-arrays and the constants of the table): only the batch
    tracker and the stored epsilons can differ. *)
Theorem insert_false_same_store fuel eh key eh' :
  elastic_hash_insert log2 fuel eh key = Done (false, eh') ->
  same_store eh eh' /\
  map start (arrays eh') = map start (arrays eh) /\
  map size (arrays eh') = map size (arrays eh) /\
  n eh' = n eh /\ delta eh' = delta eh /\
  num_arrays eh' = num_arrays eh /\ beta eh' = beta eh.
Proof.
  unfold elastic_hash_insert, same_store; intros H.
  break_if H.
  - injection H as <-. repeat split.
  - bind_inv H. bind_inv H. destruct a0 as [b eh1]; simpl in H.
    destruct b; [discriminate|].
    bind_inv H. injection H as <-.
    apply insert_loop_false in Ha0.
    apply advance_batch_same_store in Ha1.
    destruct Ha0 as (? & ? & ? & ? & ? & ? & ? & ? & ? & ?).
    destruct Ha1 as (? & ? & ? & ? & ? & ? & Ea).
    rewrite Ea. repeat split; congruence.
Qed.

(** *** The three ways [insert] returns *)

Lemma insert_loop_true fuel k eh key i eh' :
  insert_loop log2 fuel k eh key i = Done (true, eh') ->
  exists eh1 i1 pos,
    same_but_epsilon eh eh1 /\ eh' = place eh1 i1 pos key /\
    table_get eh1 pos = Done 0.
Proof.
  revert eh i; induction k as [|k IH]; simpl; intros eh i H; [discriminate|].
  unfold insert_body in H. bind_inv H.
  match type of H with
  | context [with_arrays eh ?l] =>
      assert (Hs : same_but_epsilon eh (with_arrays eh l))
        by apply set_epsilon_same;
      remember (with_arrays eh l) as eh1 eqn:E; clear E
  end.
  assert (Hrec : forall j, insert_loop log2 fuel k eh1 key j = Done (true, eh') ->
            exists eh2 i1 pos, same_but_epsilon eh eh2 /\
              eh' = place eh2 i1 pos key /\ table_get eh2 pos = Done 0).
  { intros j Hj. destruct (IH _ _ Hj) as (eh2 & i1 & pos & H1 & H2 & H3).
    exists eh2, i1, pos. split; [|auto].
    eapply same_but_epsilon_trans; eauto. }
  bind_inv H. destruct a0.
  - bind_inv H. bind_inv H. destruct a1 as [eh2|]; [|eauto].
    injection H as <-.
    match goal with
    | Hp : probe_bounded _ _ _ _ _ _ = Done (Some _) |- _ =>
        destruct (probe_bounded_Some _ _ _ _ _ _ Hp) as (pos & -> & Hpos)
    end.
    eauto 6.
  - break_if H; [eauto|].
    bind_inv H. destruct a0; [|eauto].
    bind_inv H. injection H as <-.
    match goal with
    | Hp : probe_unbounded _ _ _ _ _ _ = Done _ |- _ =>
        destruct (probe_unbounded_Done _ _ _ _ _ _ Hp) as (pos & -> & Hpos)
    end.
    eauto 6.
Qed.

Lemma insert_cases fuel eh key b eh' :
  elastic_hash_insert log2 fuel eh key = Done (b, eh') ->
  (at_capacity eh = true /\ b = false /\ eh' = eh) \/
  (at_capacity eh = false /\ b = true /\
   exists eh1 i pos, same_but_epsilon eh eh1 /\ eh' = place eh1 i pos key /\
                     table_get eh1 pos = Done 0) \/
  (at_capacity eh = false /\ b = false /\
   exists eh1, same_but_epsilon eh eh1 /\ advance_batch log2 eh1 = Done eh').
Proof.
  unfold elastic_hash_insert; intros H. break_if H.
  - injection H as <- <-. auto.
  - right. bind_inv H. bind_inv H. destruct a0 as [b1 eh1]; simpl in H.
    destruct b1.
    + injection H as <- <-. left. split; [reflexivity|]. split; [reflexivity|].
      eapply insert_loop_true; eauto.
    + bind_inv H. injection H as <- <-. right.
      split; [reflexivity|]. split; [reflexivity|].
      exists eh1. split; [|assumption]. eapply insert_loop_false; eauto.
Qed.

(** A property kept by every call is kept by a sequence of calls. *)
Lemma insert_all_invariant (P : ElasticHash -> Prop) :
  (forall fuel eh key b eh',
     P eh -> elastic_hash_insert log2 fuel eh key = Done (b, eh') -> P eh') ->
  forall keys fuel eh bs eh',
    P eh -> insert_all log2 fuel eh keys = Done (bs, eh') -> P eh'.
Proof.
  intros Hstep keys; induction keys as [|key rest IH];
    intros fuel eh bs eh' HP H; simpl in H.
  - injection H as <- <-. exact HP.
  - bind_inv H. bind_inv H. injection H as <- <-.
    destruct a as [b eh1], a0 as [bs1 eh2]. simpl in *.
    apply (IH fuel eh1 bs1 eh2); [|assumption].
    apply (Hstep fuel eh key b eh1); assumption.
Qed.

Lemma init_fields heap n_ delta_ eh :
  elastic_hash_init log2 heap n_ delta_ = Done eh ->
  n eh = n_ /\ delta eh = delta_ /\ items eh = 0 /\
  start_index (current_batch eh) = 0 /\ current (current_batch eh) = 0 /\
  Num.to_size_t (0.75 * Num.of_size_t
                   (match arrays eh with a :: _ => size a | [] => 0 end))%float
  = Done (batch_size (current_batch eh)).
Proof.
  unfold elastic_hash_init; intros H.
  bind_inv H. bind_inv H. bind_inv H.
  destruct (fst a1 !! 0%nat) as [a2|] eqn:E; [|discriminate].
  bind_inv H. injection H as <-. simpl.
  destruct (fst a1) as [|x l]; [discriminate|].
  injection E as ->. auto 10.
Qed.

Lemma to_size_t_range x z :
  Num.to_size_t x = Done z -> 0 <= z < Num.modulus.
Proof.
  unfold Num.to_size_t. destruct (Num.trunc_SF (Prim2SF x)) as [t|];
    [|discriminate].
  destruct ((0 <=? t) && (t <? Num.modulus)) eqn:E; [|discriminate].
  intros H; injection H as <-.
  apply andb_true_iff in E. destruct E as [E1 E2].
  apply Z.leb_le in E1. apply Z.ltb_lt in E2. lia.
Qed.

Lemma wrap_range z : 0 <= Num.wrap z < Num.modulus.
Proof. unfold Num.wrap. apply Z.mod_pos_bound. reflexivity. Qed.

(** *** The item count and the capacity test *)

Lemma insert_items fuel eh key b eh' :
  elastic_hash_insert log2 fuel eh key = Done (b, eh') ->
  n eh' = n eh /\ delta eh' = delta eh /\
  items eh' = (if b then Num.wrap (items eh + 1) else items eh) /\
  (b = true -> at_capacity eh = false).
Proof.
  intros H. apply insert_cases in H.
  destruct H as [(Hc & -> & ->) | [(Hc & -> & Hx) | (Hc & -> & Hx)]].
  - repeat split. discriminate.
  - destruct Hx as (eh1 & i & pos & Hs & -> & _).
    destruct Hs as (_ & ? & ? & ? & _). simpl. repeat split; congruence.
  - destruct Hx as (eh1 & Hs & Ha).
    destruct Hs as (_ & ? & ? & ? & _).
    apply advance_batch_same_store in Ha.
    destruct Ha as (_ & ? & ? & ? & _).
    repeat split; congruence.
Qed.

Lemma insert_all_items keys :
  forall fuel eh bs eh',
  insert_all log2 fuel eh keys = Done (bs, eh') ->
  Num.wrap (items eh') = Num.wrap (items eh + stored bs).
Proof.
  induction keys as [|key rest IH]; intros fuel eh bs eh' H; simpl in H.
  - injection H as <- <-. simpl. now rewrite Z.add_0_r.
  - bind_inv H. bind_inv H. injection H as <- <-.
    destruct a as [b eh1], a0 as [bs1 eh2]. simpl in *.
    rewrite (IH _ _ _ _ Ha0).
    apply insert_items in Ha. destruct Ha as (_ & _ & -> & _).
    unfold Num.wrap. destruct b.
    + rewrite Zplus_mod_idemp_l. f_equal. lia.
    + reflexivity.
Qed.

Lemma capacity_invariant_step n_ delta_ fuel eh key b eh' :
  capacity_invariant n_ delta_ eh ->
  elastic_hash_insert log2 fuel eh key = Done (b, eh') ->
  capacity_invariant n_ delta_ eh'.
Proof.
  intros (Hn & Hd & Hr & Hi) H. apply insert_items in H.
  destruct H as (Hn' & Hd' & Hi' & Hb). unfold capacity_invariant.
  rewrite Hn', Hd', Hi'. split; [assumption|]. split; [assumption|].
  destruct b.
  - split; [apply wrap_range|].
    destruct (Z.eq_dec (items eh + 1) Num.modulus) as [Ew|Ew].
    + left. rewrite Ew. reflexivity.
    + right. rewrite wrap_small by lia.
      replace (items eh + 1 - 1) with (items eh) by lia.
      specialize (Hb eq_refl). unfold at_capacity in Hb.
      unfold below_capacity. now rewrite <- Hn, <- Hd.
  - auto.
Qed.

(** C1, amended.  After the construction and any sequence of insert calls,
    [items] is the number of calls that returned [true]; it is 0, or its
    predecessor passed the test of line 118, [m < n * (1 - delta)] in double
    arithmetic (so the count can be one above the floor of n * (1 - delta));
    and once [items >= n * (1 - delta)] holds every further insert call
    returns [false] and leaves the table as it is. *)
Theorem items_within_capacity_test heap n_ delta_ fuel keys bs eh :
  build log2 heap n_ delta_ fuel keys = Done (bs, eh) ->
  items eh = Num.wrap (stored bs) /\
  (items eh = 0 \/ below_capacity n_ delta_ (items eh - 1)) /\
  (~ below_capacity n_ delta_ (items eh) ->
   forall fuel' key,
     elastic_hash_insert log2 fuel' eh key = Done (false, eh)).
Proof.
  unfold build; intros H. bind_inv H.
  pose proof (init_fields _ _ _ _ Ha) as (Hn & Hd & Hi & _).
  assert (Hinv : capacity_invariant n_ delta_ eh).
  { apply (insert_all_invariant (capacity_invariant n_ delta_))
      with (keys := keys) (fuel := fuel) (eh := a) (bs := bs);
      [|repeat split; auto; rewrite Hi; try reflexivity; auto|assumption].
    intros; eapply capacity_invariant_step; eauto. }
  destruct Hinv as (Hn' & Hd' & Hr & Hm).
  split; [|split; [assumption|]].
  - pose proof (insert_all_items _ _ _ _ _ H) as E.
    rewrite Hi, Z.add_0_l in E.
    rewrite <- E. symmetry. apply wrap_small. assumption.
  - intros Hfull fuel' key. unfold elastic_hash_insert.
    unfold below_capacity in Hfull. unfold at_capacity.
    rewrite Hn', Hd'.
    destruct (PrimFloat.leb _ _); [reflexivity|congruence].
Qed.

(** *** The batch tracker *)

Lemma batch_invariant_ext eh eh' :
  current_batch eh' = current_batch eh -> num_arrays eh' = num_arrays eh ->
  batch_invariant log2 eh -> batch_invariant log2 eh'.
Proof.
  unfold batch_invariant, batch_index. intros -> ->. auto.
Qed.

(** What lines 167-176 do to the batch. *)
Lemma advance_batch_cases eh eh' :
  advance_batch log2 eh = Done eh' ->
  let b := current_batch eh in
  let c := Num.wrap (current b + 1) in
  arrays eh' = arrays eh /\ num_arrays eh' = num_arrays eh /\
  (c < batch_size b ->
   current_batch eh' = mkBatch (start_index b) (batch_size b) c) /\
  (batch_size b <= c ->
   exists i, batch_index log2 eh = Done i /\
     (Num.wrap (i + 1) < num_arrays eh ->
      exists nx q,
        arrays eh !! Z.to_nat (Num.wrap (i + 1)) = Some nx /\
        Num.to_size_t (0.75 * Num.of_size_t (size nx))%float = Done q /\
        current_batch eh' =
          mkBatch (Num.wrap (start_index b + batch_size b))
                  (Num.wrap (size nx - q)) 0) /\
     (num_arrays eh <= Num.wrap (i + 1) ->
      current_batch eh' = mkBatch (start_index b) (batch_size b) c)).
Proof.
  intros H; cbv zeta; unfold advance_batch in H.
  set (b := current_batch eh) in *. set (c := Num.wrap (current b + 1)) in *.
  destruct (batch_size b <=? c) eqn:E.
  - apply Z.leb_le in E. bind_inv H.
    destruct (Num.wrap (a + 1) <? num_arrays eh) eqn:E2.
    + apply Z.ltb_lt in E2. bind_inv H. bind_inv H. injection H as <-.
      simpl. repeat split; try lia. intros _. exists a.
      split; [assumption|]. split; [|lia]. intros _.
      exists a0, a1. unfold get_array in Ha0.
      destruct (arrays eh !! Z.to_nat (Num.wrap (a + 1))) as [x|];
        [|discriminate].
      injection Ha0 as ->. auto.
    + apply Z.ltb_ge in E2. injection H as <-. simpl.
      repeat split; try lia. intros _. exists a.
      split; [assumption|]. split; [lia|]. reflexivity.
  - apply Z.leb_gt in E. injection H as <-. simpl.
    repeat split; try lia.
Qed.

Lemma batch_invariant_step fuel eh key b eh' :
  batch_invariant log2 eh ->
  elastic_hash_insert log2 fuel eh key = Done (b, eh') ->
  batch_invariant log2 eh'.
Proof.
  intros Hinv H. apply insert_cases in H.
  destruct H as [(Hc & -> & ->) | [(Hc & -> & Hx) | (Hc & -> & Hx)]].
  - assumption.
  - destruct Hx as (eh1 & i & pos & Hs & -> & _).
    destruct Hs as (_ & _ & _ & _ & Hna & _ & Hb & _).
    apply (batch_invariant_ext eh); simpl; auto.
  - destruct Hx as (eh1 & Hs & Ha).
    destruct Hs as (_ & _ & _ & _ & Hna & _ & Hb & _).
    apply (batch_invariant_ext eh eh1) in Hinv; auto.
    clear Hb Hna Hc eh. rename eh1 into eh.
    apply advance_batch_cases in Ha.
    destruct Ha as (_ & Hna & Hlt & Hge).
    destruct Hinv as (Hs0 & Hc0 & _).
    pose proof (wrap_range (current (current_batch eh) + 1)) as Hw.
    unfold batch_invariant.
    destruct (Z.lt_ge_cases (Num.wrap (current (current_batch eh) + 1))
                            (batch_size (current_batch eh))) as [Hl|Hg].
    + rewrite (Hlt Hl). simpl. repeat split; try lia.
    + destruct (Hge Hg) as (i & Hi & Hnext & Hlast).
      destruct (Z.lt_ge_cases (Num.wrap (i + 1)) (num_arrays eh)) as [Hn|Hn].
      * destruct (Hnext Hn) as (nx & q & _ & _ & ->). simpl.
        pose proof (wrap_range (size nx - q)). repeat split; try lia.
      * rewrite (Hlast Hn). simpl. repeat split; try lia.
        right. right. exists i. unfold batch_index in *.
        rewrite Hlast by assumption. simpl. rewrite Hna. auto.
Qed.

(** C6, amended.  After the construction and any sequence of insert calls:
    while a next sub-array remains for the batch (the index computed from
    [start_index], plus one, is below [num_arrays]), [current] does not
    exceed [size]; and a call that returns [false] below capacity adds one
    to [current], and when that reaches [size] it resets the batch against
    the next sub-array if one remains ([start_index] advanced by [size],
    [size] the quarter that the sub-array keeps after taking three quarters
    away, [current] 0) and otherwise only keeps the incremented [current],
    which from then on exceeds [size]. *)
Theorem batch_tracker heap n_ delta_ fuel keys bs eh :
  build log2 heap n_ delta_ fuel keys = Done (bs, eh) ->
  let b := current_batch eh in
  (forall i, batch_index log2 eh = Done i ->
             Num.wrap (i + 1) < num_arrays eh ->
             0 <= current b <= batch_size b) /\
  (forall fuel' key eh',
     at_capacity eh = false ->
     elastic_hash_insert log2 fuel' eh key = Done (false, eh') ->
     let c := Num.wrap (current b + 1) in
     (c < batch_size b ->
      current_batch eh' = mkBatch (start_index b) (batch_size b) c) /\
     (batch_size b <= c ->
      exists i, batch_index log2 eh = Done i /\
        (Num.wrap (i + 1) < num_arrays eh ->
         exists nx q,
           arrays eh' !! Z.to_nat (Num.wrap (i + 1)) = Some nx /\
           Num.to_size_t (0.75 * Num.of_size_t (size nx))%float = Done q /\
           current_batch eh' =
             mkBatch (Num.wrap (start_index b + batch_size b))
                     (Num.wrap (size nx - q)) 0) /\
        (num_arrays eh <= Num.wrap (i + 1) ->
         current_batch eh' = mkBatch (start_index b) (batch_size b) c))).
Proof.
  intros H; cbv zeta; unfold build in H. bind_inv H.
  pose proof (init_fields _ _ _ _ Ha) as (_ & _ & _ & Hsi & Hcur & Hbs).
  assert (Hinv : batch_invariant log2 eh).
  { apply (insert_all_invariant (batch_invariant log2))
      with (keys := keys) (fuel := fuel) (eh := a) (bs := bs);
      [|unfold batch_invariant; rewrite Hcur;
        apply to_size_t_range in Hbs; lia|assumption].
    intros; eapply batch_invariant_step; eauto. }
  split.
  - intros i Hi Hnext. destruct Hinv as (Hs0 & Hc0 & Hc).
    destruct Hc as [Hc | [Hc | (i' & Hi' & Hlast)]]; try lia.
    rewrite Hi in Hi'. injection Hi' as <-. lia.
  - intros fuel' key eh' Hcap Hins. apply insert_cases in Hins.
    destruct Hins as [(Hc & _) | [(_ & Hb & _) | (_ & _ & Hx)]];
      [congruence|discriminate|].
    destruct Hx as (eh1 & Hs & Hadv).
    destruct Hs as (_ & _ & _ & _ & Hna & _ & Hb & _).
    apply advance_batch_cases in Hadv.
    destruct Hadv as (Harr & _ & Hlt & Hge).
    cbv zeta in Hlt, Hge.
    unfold batch_index in *. rewrite Hb, Hna, <- Harr in *.
    split; assumption.
Qed.

(** *** Searching for the key [0] *)

Lemma search_probe_zero_hit eh i p cnt :
  forall j0 j,
  j0 <= j < j0 + Z.of_nat cnt ->
  (forall j', j0 <= j' < j -> probes_occupied log2 eh 0 i j') ->
  probes_empty log2 eh 0 i j p ->
  search_probe log2 cnt eh 0 i j0 = Done (Some (to_ssize_t p)).
Proof.
  induction cnt as [|c IH]; intros j0 j Hj Hocc Hemp; [lia|].
  simpl. destruct (Z.eq_dec j0 j) as [->|Hne].
  - destruct Hemp as [-> Ht]. simpl. rewrite Ht. reflexivity.
  - destruct (Hocc j0 ltac:(lia)) as (q & v & Hq & Ht & Hv).
    rewrite Hq; simpl. rewrite Ht; simpl.
    apply Z.eqb_neq in Hv. rewrite Hv.
    apply (IH (j0 + 1) j); [lia| |assumption].
    intros j' Hj'. apply Hocc. lia.
Qed.

Lemma search_probe_zero_miss eh i cnt :
  forall j0,
  (forall j', j0 <= j' < j0 + Z.of_nat cnt -> probes_occupied log2 eh 0 i j') ->
  search_probe log2 cnt eh 0 i j0 = Done None.
Proof.
  induction cnt as [|c IH]; intros j0 Hocc; [reflexivity|].
  simpl. destruct (Hocc j0 ltac:(lia)) as (q & v & Hq & Ht & Hv).
  rewrite Hq; simpl. rewrite Ht; simpl.
  apply Z.eqb_neq in Hv. rewrite Hv.
  apply IH. intros j' Hj'. apply Hocc. lia.
Qed.

Lemma search_loop_zero eh i j f p k :
  forall i0,
  i0 <= i < i0 + Z.of_nat k ->
  (forall i', i0 <= i' < i ->
     exists f', probe_budget log2 eh i' f' /\
                forall j', 0 <= j' < f' -> probes_occupied log2 eh 0 i' j') ->
  probe_budget log2 eh i f ->
  0 <= j < f ->
  (forall j', 0 <= j' < j -> probes_occupied log2 eh 0 i j') ->
  probes_empty log2 eh 0 i j p ->
  search_loop log2 k eh 0 i0 = Done (to_ssize_t p).
Proof.
  induction k as [|k IH]; intros i0 Hi Hbefore Hf Hj Hocc Hemp; [lia|].
  simpl. destruct (Z.eq_dec i0 i) as [->|Hne].
  - destruct Hf as (cur & Hc & Hb). rewrite Hc; simpl. rewrite Hb; simpl.
    rewrite (search_probe_zero_hit eh i p (Z.to_nat f) 0 j); auto.
    lia.
  - destruct (Hbefore i0 ltac:(lia)) as (f' & (cur & Hc & Hb) & Hall).
    rewrite Hc; simpl. rewrite Hb; simpl.
    rewrite search_probe_zero_miss.
    + apply IH; auto; [lia|]. intros i' Hi'. apply Hbefore. lia.
    + intros j' Hj'. apply Hall. lia.
Qed.

(** C10. Searching for the key [0]: when, in the order search probes
    (sub-arrays in increasing order, each within its budget of probes), the
    first probe that lands on an empty slot is probe [j] of sub-array [i],
    at position [p], search returns [p] and not [-1]: the comparison of the
    slot with the key comes before the test for an empty slot. *)
Theorem search_zero_returns_first_empty eh i j f p :
  0 <= i < num_arrays eh ->
  (forall i', 0 <= i' < i ->
     exists f', probe_budget log2 eh i' f' /\
                forall j', 0 <= j' < f' -> probes_occupied log2 eh 0 i' j') ->
  probe_budget log2 eh i f ->
  0 <= j < f ->
  (forall j', 0 <= j' < j -> probes_occupied log2 eh 0 i j') ->
  probes_empty log2 eh 0 i j p ->
  elastic_hash_search log2 eh 0 = Done (to_ssize_t p) /\
  (p < 2 ^ 63 -> to_ssize_t p = p /\ p <> -1).
Proof.
  intros Hi Hbefore Hf Hj Hocc Hemp. split.
  - unfold elastic_hash_search.
    apply (search_loop_zero eh i j f p); auto. lia.
  - intros Hp. unfold to_ssize_t.
    destruct (p <? 2 ^ 63) eqn:E; [|apply Z.ltb_ge in E; lia].
    split; [reflexivity|].
    destruct Hemp as [Hprobe _]. unfold probe_sequence in Hprobe.
    bind_inv Hprobe. bind_inv Hprobe. bind_inv Hprobe.
    injection Hprobe as <-. unfold Num.wrap, Num.modulus.
    pose proof (Z.mod_pos_bound (start a0 + a1) (2 ^ 64)). lia.
Qed.

End Properties.

(** ** The partition made by the construction *)

Lemma cut_size_multiple b r :
  0 < b -> b <= r ->
  exists m, 1 <= m /\ cut_size b r = m * b /\ cut_size b r <= r.
Proof.
  intros Hb Hr. unfold cut_size.
  set (ai := Z.max (r * 3 / 4) b).
  assert (Hai : b <= ai <= r).
  { unfold ai. pose proof (Z.div_mod (r * 3) 4 ltac:(lia)).
    pose proof (Z.mod_pos_bound (r * 3) 4 ltac:(lia)). lia. }
  exists (ai / b).
  pose proof (Z.div_mod ai b ltac:(lia)) as Hd.
  pose proof (Z.mod_pos_bound ai b Hb) as Hm.
  assert (1 <= ai / b) by (apply Z.div_le_lower_bound; lia).
  repeat split; lia.
Qed.

Lemma cut_size_descends b r :
  0 < b -> b <= r -> b <= r - cut_size b r ->
  cut_size b (r - cut_size b r) < cut_size b r \/
  (cut_size b (r - cut_size b r) = cut_size b r /\ cut_size b r = b).
Proof.
  intros Hb Hr Hr'.
  destruct (cut_size_multiple b r Hb Hr) as (m & Hm & Es & Hs).
  destruct (cut_size_multiple b _ Hb Hr') as (m' & Hm' & Es' & Hs').
  remember (cut_size b r) as s eqn:Ds.
  remember (cut_size b (r - s)) as s' eqn:Ds'.
  unfold cut_size in Ds, Ds'.
  pose proof (Z.div_mod (r * 3) 4 ltac:(lia)) as D1.
  pose proof (Z.mod_pos_bound (r * 3) 4 ltac:(lia)) as M1.
  pose proof (Z.div_mod ((r - s) * 3) 4 ltac:(lia)) as D2.
  pose proof (Z.mod_pos_bound ((r - s) * 3) 4 ltac:(lia)) as M2.
  pose proof (Z.mod_pos_bound (Z.max (r * 3 / 4) b) b Hb) as M3.
  pose proof (Z.mod_pos_bound (Z.max ((r - s) * 3 / 4) b) b Hb) as M4.
  assert (Hcases : m = 1 \/ 2 <= m) by lia.
  destruct Hcases as [-> | Hm2].
  - right. assert (s = b) by lia. split; [|assumption].
    assert (m' < 2); [|nia].
    assert (s' < 2 * b) by lia. nia.
  - left. assert (2 * b <= s) by nia. lia.
Qed.

Lemma partition_multiples k b r st :
  0 < b -> b <= r ->
  Forall (fun a => exists m, 1 <= m /\ size a = m * b) (partition k b r st).
Proof.
  revert r st; induction k as [|k IH]; intros r st Hb Hr; simpl.
  - constructor.
  - destruct (cut_size_multiple b r Hb Hr) as (m & Hm & Es & Hs).
    constructor; [exists m; simpl; auto|].
    destruct (r - cut_size b r <? b) eqn:E; [constructor|].
    apply Z.ltb_ge in E. apply IH; lia.
Qed.

Lemma partition_total k b r st :
  0 < b -> b <= r -> total_size (partition k b r st) <= r.
Proof.
  revert r st; induction k as [|k IH]; intros r st Hb Hr;
    unfold total_size; simpl; [lia|].
  destruct (cut_size_multiple b r Hb Hr) as (m & Hm & Es & Hs).
  destruct (r - cut_size b r <? b) eqn:E; simpl; [lia|].
  apply Z.ltb_ge in E.
  specialize (IH (r - cut_size b r) (st + cut_size b r) Hb E).
  unfold total_size in IH. lia.
Qed.

Lemma partition_contiguous k b r st : contiguous st (partition k b r st).
Proof.
  revert r st; induction k as [|k IH]; intros r st; simpl; [exact I|].
  split; [reflexivity|].
  destruct (r - cut_size b r <? b); simpl; [exact I|apply IH].
Qed.

Lemma partition_descending k b r st :
  0 < b -> b <= r -> descending b (map size (partition k b r st)).
Proof.
  revert r st; induction k as [|k IH]; intros r st Hb Hr; [exact I|].
  cbn [partition].
  destruct (r - cut_size b r <? b) eqn:E; [exact I|].
  apply Z.ltb_ge in E.
  specialize (IH (r - cut_size b r) (st + cut_size b r) Hb E).
  destruct k as [|k]; [exact I|].
  cbn [partition map size] in IH |- *. cbn [descending]. split.
  - apply cut_size_descends; assumption.
  - exact IH.
Qed.

(** The sizing loop writes the entries of [partition] from index [i] on and
    leaves the rest of the block as it was. *)
Lemma init_loop_partition k :
  forall b i rem st block arrs cnt,
  0 < b -> b <= rem -> rem * 3 < Num.modulus -> 0 <= st ->
  st + rem < Num.modulus -> (i + k <= length block)%nat ->
  init_loop k b i rem st block = Done (arrs, cnt) ->
  take cnt arrs = take i block ++ partition k b rem st /\
  cnt = (i + length (partition k b rem st))%nat /\
  drop cnt arrs = drop cnt block.
Proof.
  induction k as [|k IH]; intros b i rem st block arrs cnt Hb Hr H3 Hst Hsum Hlen H.
  - simpl in H. injection H as <- <-. simpl.
    rewrite app_nil_r, Nat.add_0_r. auto.
  - cbn [init_loop] in H.
    rewrite (wrap_small (rem * 3)) in H by lia.
    assert (Hai : (if rem * 3 / 4 <? b then b else rem * 3 / 4)
                  = Z.max (rem * 3 / 4) b).
    { destruct (rem * 3 / 4 <? b) eqn:E;
        [apply Z.ltb_lt in E|apply Z.ltb_ge in E]; lia. }
    rewrite Hai in H. unfold Num.umod in H.
    destruct (b =? 0) eqn:Eb; [apply Z.eqb_eq in Eb; lia|].
    cbn [bind] in H. fold (cut_size b rem) in H.
    destruct (cut_size_multiple b rem Hb Hr) as (m & Hm & Es & Hs).
    assert (1 * b <= m * b) by (apply Z.mul_le_mono_nonneg_r; lia).
    rewrite (wrap_small (rem - cut_size b rem)) in H by lia.
    rewrite (wrap_small (st + cut_size b rem)) in H by lia.
    cbn [partition].
    set (a := mkSubArray st (cut_size b rem) 0 1%float) in *.
    assert (Hi : (i < length block)%nat) by lia.
    assert (Htake : take (S i) (<[i:=a]> block) = take i block ++ [a]).
    { rewrite (take_S_r _ _ a) by (apply list_lookup_insert_eq; exact Hi).
      rewrite take_insert_ge by lia. reflexivity. }
    destruct (rem - cut_size b rem <? b) eqn:E.
    + injection H as <- <-. rewrite Htake. simpl.
      rewrite drop_insert_lt by lia.
      repeat split. lia.
    + apply Z.ltb_ge in E.
      apply IH in H; try lia.
      * destruct H as (Ht & Hc & Hd). rewrite Ht, Htake, <- app_assoc.
        simpl. repeat split; [lia|].
        rewrite Hd. apply drop_insert_lt. lia.
      * rewrite length_insert. lia.
Qed.

Section Geometry.

Variable log2 : float -> float.

(** C3, amended.  When beta is positive, the capacity is at least beta and
    three times the capacity fits in 64 bits, the sub-arrays the
    construction computes have sizes that are positive multiples of beta,
    each below the one before it unless both are beta; their regions follow
    one another from offset 0; and the sum of their sizes is at most [n]. *)
Theorem partition_geometry heap n_ delta_ b arrs cnt :
  beta_of log2 delta_ = Done b ->
  0 < b -> b <= n_ -> n_ * 3 < 2 ^ 64 ->
  init_arrays log2 heap n_ delta_ = Done (arrs, cnt) ->
  let parts := take cnt arrs in
  Forall (fun a => exists m, 1 <= m /\ size a = m * b) parts /\
  descending b (map size parts) /\
  contiguous 0 parts /\
  total_size parts <= n_.
Proof.
  intros Hbeta Hb Hn H3 H parts. unfold init_arrays in H.
  rewrite Hbeta in H. cbn [bind] in H. bind_inv H.
  apply init_loop_partition in H; try (unfold Num.modulus; lia).
  - destruct H as (Ht & _ & _). simpl in Ht. subst parts. rewrite Ht.
    repeat split.
    + apply partition_multiples; assumption.
    + apply partition_descending; assumption.
    + apply partition_contiguous.
    + apply partition_total; assumption.
  - rewrite length_map, length_seq. lia.
Qed.

End Geometry.

(** ** The runs of the claims *)

(** C5. [phi] is not injective: the pairs (0, 3) and (6, 1) have the same
    code, 62, because the shift for [i] is the integer part of log2 (i + 1)
    and not the number of bits of [i]; and for the fixed [i = 0] the attempts
    2^32 and 2^33 have the same code, because the interleaved bits of [j] no
    longer fit in 64 bits. *)
Theorem phi_collisions :
  phi Libm.log2 0 3 = Done 62 /\ phi Libm.log2 6 1 = Done 62 /\
  phi Libm.log2 0 (2 ^ 32) = Done 12297829382473034414 /\
  phi Libm.log2 0 (2 ^ 33) = Done 12297829382473034414.
Proof. repeat split; vm_compute; reflexivity. Qed.

(** C8. For capacity 1024 and slack 0.1 the construction writes 4 entries of
    the sub-array block and leaves the other 20 as it found them, while
    [num_arrays], the bound of the loops of insert and search, is 24; a
    search on the table just constructed on zeroed storage goes on to entry
    4, whose size reads 0, and divides by it. *)
Theorem num_arrays_exceeds_initialized (heap : nat -> SubArray) :
  exists arrs,
    init_arrays Libm.log2 heap 1024 0.1 = Done (arrs, 4%nat) /\
    drop 4 arrs = map heap (seq 4 20) /\
    num_arrays_of Libm.log2 0.1 = Done 24 /\
    elastic_hash_init Libm.log2 zero_heap 1024 0.1 = Done zero_table /\
    num_arrays zero_table = 24 /\
    elastic_hash_search Libm.log2 zero_table 7 = Fault DivByZero.
Proof.
  eexists. split; [vm_compute; reflexivity|].
  repeat split; vm_compute; reflexivity.
Qed.

(** The demonstration run on zeroed storage: the 900 calls return [true] and
    search finds 42 at position 1004. *)
Lemma demo_on_zero_heap :
  build Libm.log2 zero_heap 1024 0.1 5000 (keys_from 1 900)
    = Done (repeat true 900, demo_table) /\
  elastic_hash_search Libm.log2 demo_table 42 = Done 1004 /\
  table demo_table !! 1004%nat = Some 42.
Proof. repeat split; vm_compute; reflexivity. Qed.

(** C4. The demonstration run reads entry 4 of the sub-array block, which
    the construction has not written.  When that storage still reads as the
    sub-arrays of an earlier table, the first call, insert of the key 1,
    returns [false] and stores nothing. *)
Theorem demo_on_stale_heap (fuel : nat) :
  build Libm.log2 stale_heap 1024 0.1 fuel [1] = Done ([false], stale_table_1) /\
  items stale_table_1 = 0.
Proof. split; vm_compute; reflexivity. Qed.

(** C2. Capacity 1024, slack 0.1, zeroed storage: insert of the key 1
    returns [true] and stores it in slot 1018, of sub-array 3; the search for
    1 that follows allows sub-arrays 0 to 3 no probe (their stored epsilon is
    1), goes on to entry 4, never written, and divides by its size 0.  It
    does not return a position. *)
Theorem search_misses_inserted_key :
  elastic_hash_insert Libm.log2 1 zero_table 1 = Done (true, zero_table_1) /\
  table zero_table_1 !! 1018%nat = Some 1 /\
  map (fun a => compute_f Libm.log2 (epsilon a) 0.1)
      (take 4 (arrays zero_table_1)) = [Done 0; Done 0; Done 0; Done 0] /\
  elastic_hash_search Libm.log2 zero_table_1 1 = Fault DivByZero.
Proof. repeat split; vm_compute; reflexivity. Qed.

(** C1, as stated, fails: with capacity 1024 and slack 0.1 the floor of
    n * (1 - delta) is 921, and the inserts of the keys 1 to 922 all return
    [true], which leaves 922 items. *)
Lemma items_exceed_capacity_floor :
  capacity_floor 1024 0.1 = Done 921 /\
  build Libm.log2 zero_heap 1024 0.1 5000 (keys_from 1 922)
    = Done (repeat true 922, full_table) /\
  items full_table = 922.
Proof. repeat split; vm_compute; reflexivity. Qed.

(** C3, as stated, fails: capacity 5 and slack 0.5 give two sub-arrays of
    size 2; capacity 4 and slack 0.1 give a first sub-array of size 6; and
    slack 0.9 gives beta = 0, by which the sizing loop divides. *)
Lemma partition_geometry_fails :
  (exists arrs, init_arrays Libm.log2 zero_heap 5 0.5 = Done (arrs, 2%nat) /\
                map size (take 2 arrs) = [2; 2]) /\
  (exists arrs cnt, init_arrays Libm.log2 zero_heap 4 0.1 = Done (arrs, cnt) /\
                    map size (take 1 arrs) = [6]) /\
  beta_of Libm.log2 0.9 = Done 0 /\
  init_arrays Libm.log2 zero_heap 4 0.9 = Fault DivByZero.
Proof.
  split; [eexists; split; vm_compute; reflexivity|].
  split; [eexists; eexists; split; vm_compute; reflexivity|].
  split; vm_compute; reflexivity.
Qed.

(** C6, as stated, fails: capacity 8192 and slack 0.6 on recycled storage;
    after 4993 insert calls, none of which stores a key, the batch has
    [current = 385] and [size = 384]. *)
Lemma batch_current_exceeds_size :
  current_batch
    (final_state (build Libm.log2 stale_heap 8192 0.6 0 (keys_from 1 4993)))
  = mkBatch 4608 384 385.
Proof. vm_compute; reflexivity. Qed.

(** *** A probe sequence that never reaches an empty slot *)

(** Every code of sub-array 1 is odd. *)
Lemma phi_1_odd (j : Z) :
  exists x, phi Libm.log2 1 j = Done (Z.lor x 1).
Proof.
  unfold phi. generalize (interleave 64 1 j); intros r.
  replace (Num.to_size_t (Libm.log2 (Num.of_size_t (Num.wrap (1 + 1)))))
    with (Done (A := Z) 1) by (vm_compute; reflexivity).
  cbn [bind]. unfold Num.shl. change (1 <? 64) with true.
  cbn [bind]. eexists. reflexivity.
Qed.

Lemma lxor_odd_3_even (x : Z) : Z.lxor (Z.lor x 1) 3 mod 2 = 0.
Proof.
  rewrite <- Z.bit0_mod, Z.lxor_spec, Z.lor_spec.
  change (Z.testbit 1 0) with true. change (Z.testbit 3 0) with true.
  now rewrite orb_true_r.
Qed.

(** In [tiny_table_1] every probe of the key 3 in sub-array 1 lands on slot
    6, which holds the key 1. *)
Lemma tiny_probe (j : Z) : probe_sequence Libm.log2 tiny_table_1 3 1 j = Done 6.
Proof.
  unfold probe_sequence. destruct (phi_1_odd j) as [x ->]. cbn [bind].
  change (get_array tiny_table_1 1) with (Done (mkSubArray 6 2 1 1%float)).
  cbn [bind size start]. unfold Num.umod. change (2 =? 0) with false.
  cbn [bind]. rewrite lxor_odd_3_even. reflexivity.
Qed.

Lemma tiny_probe_unbounded (eps : float) (fuel : nat) :
  forall j,
  probe_unbounded Libm.log2 fuel
    (with_arrays tiny_table_1
       (alter (fun a => set_epsilon a eps) 1%nat (arrays tiny_table_1))) 3 1 j
  = Timeout.
Proof.
  induction fuel as [|fuel IH]; intros j; [reflexivity|].
  cbn [probe_unbounded].
  replace (probe_sequence Libm.log2 _ 3 1 j) with (Done (A := Z) 6)
    by (symmetry; apply tiny_probe).
  cbn [bind]. change (table_get _ 6) with (Done (A := Z) 1).
  cbn [bind Z.eqb]. apply IH.
Qed.

Lemma insert_loop_S fuel k eh key i :
  insert_loop Libm.log2 fuel (S k) eh key i
  = insert_body Libm.log2
      (fun eh' key' i' => probe_unbounded Libm.log2 fuel eh' key' i' 0)
      (fun eh' => insert_loop Libm.log2 fuel k eh' key (i + 1))
      eh key i.
Proof. reflexivity. Qed.

(** Sub-array 0 is empty and so is allowed no probe (case 1). *)
Lemma tiny_step_0 unbounded continue :
  insert_body Libm.log2 unbounded continue tiny_table_1 3 0
  = continue tiny_table_1.
Proof. vm_compute. reflexivity. Qed.

(** Sub-array 1 is taken by case 3: entry 2 reads epsilon 0. *)
Lemma tiny_step_1 unbounded continue :
  insert_body Libm.log2 unbounded continue tiny_table_1 3 (0 + 1)
  = do eh' <- unbounded
                (with_arrays tiny_table_1
                   (alter (fun a => set_epsilon a 0.5%float) 1%nat
                          (arrays tiny_table_1))) 3 1;
    Done (true, eh').
Proof. vm_compute. reflexivity. Qed.

(** C7. Capacity 8, slack 0.5, zeroed storage, after insert of the key 1
    (in slot 6): the table holds 1 item, below n * (1 - delta) = 4, and the
    insert of the key 3 enters the loop of case 3 for sub-array 1, whose
    probes all land on slot 6.  Whatever the fuel, the call does not
    return. *)
Theorem insert_never_returns (fuel : nat) :
  build Libm.log2 zero_heap 8 0.5 (S fuel) [1] = Done ([true], tiny_table_1) /\
  items tiny_table_1 = 1 /\
  at_capacity tiny_table_1 = false /\
  table tiny_table_1 = [0; 0; 0; 0; 0; 0; 1; 0] /\
  elastic_hash_insert Libm.log2 fuel tiny_table_1 3 = Timeout.
Proof.
  split; [vm_compute; reflexivity|].
  repeat split.
  unfold elastic_hash_insert.
  replace (at_capacity tiny_table_1) with false by (vm_compute; reflexivity).
  replace (batch_index Libm.log2 tiny_table_1) with (Done (A := Z) 0)
    by (vm_compute; reflexivity).
  cbn [bind].
  replace (Z.to_nat (num_arrays tiny_table_1 - 0)) with 14%nat
    by (vm_compute; reflexivity).
  rewrite insert_loop_S, tiny_step_0, insert_loop_S, tiny_step_1.
  rewrite tiny_probe_unbounded. reflexivity.
Qed.

(** ** Instances *)

Lemma insert_false_same_store_example :
  elastic_hash_insert Libm.log2 0 stale_table 1 = Done (false, stale_table_1) /\
  same_store stale_table stale_table_1 /\
  current (current_batch stale_table) = 0 /\
  current (current_batch stale_table_1) = 1.
Proof.
  split; [vm_compute; reflexivity|].
  split; [|split; vm_compute; reflexivity].
  apply (insert_false_same_store Libm.log2 0 stale_table 1 stale_table_1).
  vm_compute; reflexivity.
Defined.

Lemma search_zero_returns_first_empty_example :
  elastic_hash_search Libm.log2 demo_table 0 = Done 174 /\
  table demo_table !! 174%nat = Some 0.
Proof.
  split; [|vm_compute; reflexivity].
  change (Done 174) with (Done (A := Z) (to_ssize_t 174)).
  apply (search_zero_returns_first_empty Libm.log2 demo_table 0 4 13 174).
  - change (num_arrays demo_table) with 24. lia.
  - intros i' Hi'. lia.
  - eexists. split; [vm_compute; reflexivity|]. vm_compute; reflexivity.
  - lia.
  - intros j' Hj'.
    assert (Hc : j' = 0 \/ j' = 1 \/ j' = 2 \/ j' = 3) by lia.
    destruct Hc as [-> | [-> | [-> | ->]]]; eexists; eexists;
      (split; [vm_compute; reflexivity|]);
      (split; [vm_compute; reflexivity|]); discriminate.
  - split; [vm_compute; reflexivity|]. vm_compute; reflexivity.
Defined.

Lemma partition_geometry_example :
  let parts := take 4 (arrays zero_table) in
  map size parts = [768; 192; 48; 12] /\
  Forall (fun a => exists m, 1 <= m /\ size a = m * 6) parts /\
  descending 6 (map size parts) /\
  contiguous 0 parts /\
  total_size parts <= 1024.
Proof.
  split; [vm_compute; reflexivity|].
  apply (partition_geometry Libm.log2 zero_heap 1024 0.1 6 (arrays zero_table) 4).
  - vm_compute; reflexivity.
  - lia.
  - lia.
  - lia.
  - vm_compute; reflexivity.
Defined.

Lemma items_within_capacity_test_example :
  items full_table = 922 /\
  below_capacity 1024 0.1 921 /\
  elastic_hash_insert Libm.log2 0 full_table 923 = Done (false, full_table).
Proof.
  pose proof (items_within_capacity_test Libm.log2 zero_heap 1024 0.1 5000
                (keys_from 1 922) (repeat true 922) full_table
                ltac:(vm_compute; reflexivity)) as (Hcount & Hpred & Hfull).
  split; [exact Hcount|]. split.
  { destruct Hpred as [H0|Hb]; [vm_compute in H0; discriminate H0|exact Hb]. }
  apply Hfull. unfold below_capacity. vm_compute. discriminate.
Defined.

Lemma batch_tracker_example :
  0 <= current (current_batch stale_small_3)
    <= batch_size (current_batch stale_small_3) /\
  current_batch stale_small_3 = mkBatch 0 4 3 /\
  current_batch stale_small_4 = mkBatch 4 1 0.
Proof.
  pose proof (batch_tracker Libm.log2 stale_heap 8 0.5 0 [1; 2; 3]
                [false; false; false] stale_small_3
                ltac:(vm_compute; reflexivity)) as [Hle Hstep].
  split; [apply (Hle 0); vm_compute; reflexivity|].
  split; [vm_compute; reflexivity|].
  destruct (Hstep 0%nat 4 stale_small_4 ltac:(vm_compute; reflexivity)
              ltac:(vm_compute; reflexivity)) as [_ Hreset].
  destruct (Hreset ltac:(vm_compute; discriminate)) as (i & Hi & Hnext & _).
  vm_compute in Hi. injection Hi as <-.
  destruct (Hnext ltac:(vm_compute; reflexivity)) as (nx & q & Hnx & Hq & Hb).
  vm_compute in Hnx. injection Hnx as <-.
  vm_compute in Hq. injection Hq as <-.
  exact Hb.
Defined.

(** * Further properties of the operations *)

Section Search.

Variable log2 : float -> float.

Lemma search_probe_sound cnt eh key i r :
  forall j,
  search_probe log2 cnt eh key i j = Done (Some r) ->
  exists j' pos,
    j <= j' /\ probe_sequence log2 eh key i j' = Done pos /\
    r = to_ssize_t pos /\ table eh !! Z.to_nat pos = Some key.
Proof.
  induction cnt as [|c IH]; intros j H; simpl in H; [discriminate|].
  bind_inv H. bind_inv H.
  destruct (a0 =? key) eqn:E.
  - apply Z.eqb_eq in E. subst a0. injection H as <-.
    exists j, a. split; [lia|]. split; [assumption|]. split; [reflexivity|].
    unfold table_get in Ha0.
    destruct (table eh !! Z.to_nat a); [|discriminate]. congruence.
  - destruct (a0 =? 0); [discriminate|].
    destruct (IH _ H) as (j' & pos & Hj & Hrest).
    exists j', pos. split; [lia|assumption].
Qed.

Lemma search_loop_sound k eh key r :
  forall i,
  search_loop log2 k eh key i = Done r ->
  r = -1 \/
  exists i' j pos,
    i <= i' < i + Z.of_nat k /\ 0 <= j /\
    probe_sequence log2 eh key i' j = Done pos /\
    r = to_ssize_t pos /\ table eh !! Z.to_nat pos = Some key.
Proof.
  induction k as [|k IH]; intros i H; simpl in H.
  - injection H as <-. auto.
  - bind_inv H. bind_inv H. bind_inv H. destruct a1 as [p|].
    + injection H as <-. right.
      destruct (search_probe_sound _ _ _ _ _ _ Ha1) as (j & pos & Hj & Hrest).
      exists i, j, pos. repeat split; try lia; apply Hrest.
    + destruct (IH _ H) as [->|(i' & j & pos & Hi & Hrest)]; [auto|].
      right. exists i', j, pos. split; [lia|assumption].
Qed.

(** X1. Search is sound for every key: a result other than -1 is the
    position of a probe of that key, and the slot there holds the key. *)
Theorem search_sound eh key r :
  elastic_hash_search log2 eh key = Done r ->
  r = -1 \/
  exists i j pos,
    0 <= i < num_arrays eh /\ 0 <= j /\
    probe_sequence log2 eh key i j = Done pos /\
    r = to_ssize_t pos /\ table eh !! Z.to_nat pos = Some key.
Proof.
  unfold elastic_hash_search; intros H.
  apply search_loop_sound in H.
  destruct H as [->|(i & j & pos & Hi & Hrest)]; [auto|].
  right. exists i, j, pos. split; [lia|assumption].
Qed.

Lemma search_probe_gives_up eh key i f m :
  0 <= m <= f ->
  (forall j, 0 <= j < m -> probes_other log2 eh key i j) ->
  (m = f \/ (key <> 0 /\ exists p, probes_empty log2 eh key i m p)) ->
  forall cnt j0,
  0 <= j0 <= m -> Z.of_nat cnt = f - j0 ->
  search_probe log2 cnt eh key i j0 = Done None.
Proof.
  intros Hm Hother Hend cnt; induction cnt as [|c IH]; intros j0 Hj Hc;
    [reflexivity|].
  cbn [search_probe]. destruct (Z.eq_dec j0 m) as [->|Hne].
  - destruct Hend as [->|(Hk & p & Hp & Ht)]; [lia|].
    rewrite Hp; cbn [bind]. rewrite Ht; cbn [bind].
    destruct (0 =? key) eqn:E; [apply Z.eqb_eq in E; congruence|reflexivity].
  - destruct (Hother j0 ltac:(lia)) as (p & v & Hp & Ht & Hv & Hz).
    rewrite Hp; cbn [bind]. rewrite Ht; cbn [bind].
    apply Z.eqb_neq in Hv, Hz. rewrite Hv, Hz.
    apply IH; lia.
Qed.

Lemma search_probe_finds eh key i j p :
  (forall j', 0 <= j' < j -> probes_other log2 eh key i j') ->
  probes_key log2 eh key i j p ->
  forall cnt j0,
  0 <= j0 <= j -> j < j0 + Z.of_nat cnt ->
  search_probe log2 cnt eh key i j0 = Done (Some (to_ssize_t p)).
Proof.
  intros Hother (Hp & Ht) cnt; induction cnt as [|c IH]; intros j0 Hj Hc;
    [lia|].
  cbn [search_probe]. destruct (Z.eq_dec j0 j) as [->|Hne].
  - rewrite Hp; cbn [bind]. rewrite Ht; cbn [bind]. now rewrite Z.eqb_refl.
  - destruct (Hother j0 ltac:(lia)) as (q & v & Hq & Hv & Hk & Hz).
    rewrite Hq; cbn [bind]. rewrite Hv; cbn [bind].
    apply Z.eqb_neq in Hk, Hz. rewrite Hk, Hz.
    apply IH; lia.
Qed.

Lemma search_loop_skips eh key k :
  forall i0 rest,
  (forall i, i0 <= i < i0 + Z.of_nat k -> gives_up log2 eh key i) ->
  search_loop log2 (k + rest) eh key i0
  = search_loop log2 rest eh key (i0 + Z.of_nat k).
Proof.
  induction k as [|k IH]; intros i0 rest Hall.
  - simpl. now rewrite Z.add_0_r.
  - cbn [Nat.add search_loop].
    destruct (Hall i0 ltac:(lia)) as (f & m & (cur & Hc & Hf) & Hm & Ho & He).
    rewrite Hc; cbn [bind]. rewrite Hf; cbn [bind].
    rewrite (search_probe_gives_up eh key i0 f m Hm Ho He) by lia.
    rewrite IH by (intros i Hi; apply Hall; lia).
    cbn [bind]. f_equal. lia.
Qed.

(** X2. A key that is not met is reported missing: when search gives up in
    every sub-array (its probes meet other keys until the budget is used up
    or an empty slot stops them), it returns -1. *)
Theorem search_not_found eh key :
  0 <= num_arrays eh ->
  (forall i, 0 <= i < num_arrays eh -> gives_up log2 eh key i) ->
  elastic_hash_search log2 eh key = Done (-1).
Proof.
  intros Hn Hall. unfold elastic_hash_search.
  rewrite <- (Nat.add_0_r (Z.to_nat (num_arrays eh))).
  rewrite search_loop_skips; [reflexivity|].
  intros i Hi. apply Hall. lia.
Qed.

(** X3. A key is found where search first meets it: when search gives up in
    the sub-arrays before [i], and in sub-array [i] the probes before [j]
    meet other keys and probe [j], within the budget, lands on a slot
    holding the key, search returns that position. *)
Theorem search_finds eh key i j f p :
  0 <= i < num_arrays eh ->
  (forall i', 0 <= i' < i -> gives_up log2 eh key i') ->
  probe_budget log2 eh i f ->
  0 <= j < f ->
  (forall j', 0 <= j' < j -> probes_other log2 eh key i j') ->
  probes_key log2 eh key i j p ->
  elastic_hash_search log2 eh key = Done (to_ssize_t p).
Proof.
  intros Hi Hbefore (cur & Hc & Hf) Hj Hother Hkey.
  unfold elastic_hash_search.
  replace (Z.to_nat (num_arrays eh))
    with (Z.to_nat i + S (Z.to_nat (num_arrays eh - i - 1)))%nat by lia.
  rewrite search_loop_skips by (intros i' Hi'; apply Hbefore; lia).
  rewrite Z.add_0_l, Z2Nat.id by lia.
  cbn [search_loop]. rewrite Hc; cbn [bind]. rewrite Hf; cbn [bind].
  rewrite (search_probe_finds eh key i j p Hother Hkey) by lia.
  reflexivity.
Qed.

End Search.

Section Insert.

Variable log2 : float -> float.

Lemma probe_bounded_at cnt eh key i eh' :
  forall j,
  probe_bounded log2 cnt eh key i j = Done (Some eh') ->
  exists j' pos,
    probe_sequence log2 eh key i j' = Done pos /\
    table_get eh pos = Done 0 /\ eh' = place eh i pos key.
Proof.
  induction cnt as [|c IH]; intros j H; simpl in H; [discriminate|].
  bind_inv H. bind_inv H. destruct (a0 =? 0) eqn:E; [|eauto].
  apply Z.eqb_eq in E. subst a0. injection H as <-. eauto.
Qed.

Lemma probe_unbounded_at fuel eh key i eh' :
  forall j,
  probe_unbounded log2 fuel eh key i j = Done eh' ->
  exists j' pos,
    probe_sequence log2 eh key i j' = Done pos /\
    table_get eh pos = Done 0 /\ eh' = place eh i pos key.
Proof.
  induction fuel as [|c IH]; intros j H; simpl in H; [discriminate|].
  bind_inv H. bind_inv H. destruct (a0 =? 0) eqn:E; [|eauto].
  apply Z.eqb_eq in E. subst a0. injection H as <-. eauto.
Qed.

Lemma insert_loop_true_at fuel k eh key eh' :
  forall i,
  insert_loop log2 fuel k eh key i = Done (true, eh') ->
  exists eh1 i1 j pos,
    same_but_epsilon eh eh1 /\ i <= i1 < i + Z.of_nat k /\
    probe_sequence log2 eh1 key i1 j = Done pos /\
    table_get eh1 pos = Done 0 /\ eh' = place eh1 i1 pos key.
Proof.
  revert eh; induction k as [|k IH]; intros eh i H; [discriminate|].
  cbn [insert_loop] in H. unfold insert_body in H. bind_inv H.
  match type of H with
  | context [with_arrays eh ?l] =>
      assert (Hs : same_but_epsilon eh (with_arrays eh l))
        by apply set_epsilon_same;
      remember (with_arrays eh l) as eh1 eqn:E; clear E
  end.
  assert (Hrec : insert_loop log2 fuel k eh1 key (i + 1) = Done (true, eh') ->
            exists eh2 i1 j pos, same_but_epsilon eh eh2 /\
              i <= i1 < i + Z.of_nat (S k) /\
              probe_sequence log2 eh2 key i1 j = Done pos /\
              table_get eh2 pos = Done 0 /\ eh' = place eh2 i1 pos key).
  { intros Hj. destruct (IH _ _ Hj) as (eh2 & i1 & j & pos & H1 & H2 & H3).
    exists eh2, i1, j, pos. split; [|split; [lia|assumption]].
    eapply same_but_epsilon_trans; eauto. }
  assert (Hhere : forall j pos,
            probe_sequence log2 eh1 key i j = Done pos ->
            table_get eh1 pos = Done 0 ->
            exists eh2 i1 j pos0, same_but_epsilon eh eh2 /\
              i <= i1 < i + Z.of_nat (S k) /\
              probe_sequence log2 eh2 key i1 j = Done pos0 /\
              table_get eh2 pos0 = Done 0 /\
              place eh1 i pos key = place eh2 i1 pos0 key).
  { intros j pos Hp Ht. exists eh1, i, j, pos.
    split; [exact Hs|]. split; [lia|]. auto. }
  bind_inv H. destruct a0.
  - bind_inv H. bind_inv H. destruct a1 as [eh2|]; [|auto].
    injection H as <-.
    match goal with
    | Hp : probe_bounded _ _ _ _ _ _ = Done (Some _) |- _ =>
        destruct (probe_bounded_at _ _ _ _ _ _ Hp) as (j & pos & Hq & Ht & ->)
    end.
    eauto.
  - break_if H; [auto|].
    bind_inv H. destruct a0; [|auto].
    bind_inv H. injection H as <-.
    match goal with
    | Hp : probe_unbounded _ _ _ _ _ _ = Done _ |- _ =>
        destruct (probe_unbounded_at _ _ _ _ _ _ Hp) as (j & pos & Hq & Ht & ->)
    end.
    eauto.
Qed.

Lemma same_but_epsilon_lookup eh eh1 i a1 :
  same_but_epsilon eh eh1 ->
  arrays eh1 !! i = Some a1 ->
  exists a, arrays eh !! i = Some a /\ start a = start a1 /\
            size a = size a1 /\ filled_slots a = filled_slots a1.
Proof.
  intros (_ & _ & _ & _ & _ & _ & _ & Hst & Hsz & Hfl).
  revert i Hst Hsz Hfl.
  generalize (arrays eh1) as l1, (arrays eh) as l.
  induction l1 as [|x l1 IH]; intros l i Hst Hsz Hfl Hi.
  - destruct i; discriminate Hi.
  - destruct l as [|y l]; [discriminate Hst|].
    cbn [map] in Hst, Hsz, Hfl.
    injection Hst as Hs1 Hs2. injection Hsz as Hz1 Hz2.
    injection Hfl as Hf1 Hf2.
    destruct i as [|i]; cbn in Hi |- *.
    + injection Hi as <-. exists y. auto.
    + eapply IH; eauto.
Qed.

(** X4. What a successful insert does: below capacity, it finds a probe of
    the key in some sub-array [i] (the code [h] of [phi] for an attempt [j],
    combined with the key and reduced modulo the size) that lands on an
    empty slot, writes the key there and nowhere else, adds one to [items]
    and to the [filled_slots] of sub-array [i] only, and leaves the batch
    and the geometry as they were. *)
Theorem insert_true_effect fuel eh key eh' :
  elastic_hash_insert log2 fuel eh key = Done (true, eh') ->
  at_capacity eh = false /\
  exists i a j h pos,
    0 <= i < num_arrays eh /\
    arrays eh !! Z.to_nat i = Some a /\ size a <> 0 /\
    phi log2 i j = Done h /\
    pos = Num.wrap (start a + Z.lxor h key mod size a) /\
    table eh !! Z.to_nat pos = Some 0 /\
    table eh' = <[Z.to_nat pos := key]> (table eh) /\
    items eh' = Num.wrap (items eh + 1) /\
    map filled_slots (arrays eh')
      = alter (fun c => Num.wrap (c + 1)) (Z.to_nat i)
              (map filled_slots (arrays eh)) /\
    map start (arrays eh') = map start (arrays eh) /\
    map size (arrays eh') = map size (arrays eh) /\
    current_batch eh' = current_batch eh /\
    num_arrays eh' = num_arrays eh.
Proof.
  unfold elastic_hash_insert; intros H.
  destruct (at_capacity eh); [discriminate|]. split; [reflexivity|].
  bind_inv H. bind_inv H. destruct a0 as [b eh2]; simpl in H.
  destruct b; [|bind_inv H; discriminate]. injection H as <-.
  apply insert_loop_true_at in Ha0.
  destruct Ha0 as (eh1 & i & j & pos & Hs & Hi & Hp & Ht & ->).
  unfold probe_sequence in Hp. bind_inv Hp. bind_inv Hp.
  unfold Num.umod in Hp. destruct (size a1 =? 0) eqn:Ez; [discriminate|].
  apply Z.eqb_neq in Ez. cbn [bind] in Hp. injection Hp as <-.
  unfold get_array in Ha1.
  destruct (arrays eh1 !! Z.to_nat i) as [x|] eqn:Ei; [|discriminate].
  injection Ha1 as ->.
  destruct (same_but_epsilon_lookup _ _ _ _ Hs Ei) as (a' & Ha' & E1 & E2 & E3).
  pose proof (to_size_t_range _ _ Ha) as Hr.
  destruct Hs as (Htab & _ & _ & Hit & Hna & _ & Hb & Hst & Hsz & Hfl).
  exists i, a', j, a0, (Num.wrap (start a1 + Z.lxor a0 key mod size a1)).
  unfold table_get in Ht. rewrite Htab in Ht.
  destruct (table eh !! _) as [v|] eqn:Ev; [|discriminate].
  injection Ht as ->. simpl.
  rewrite E1, E2, Htab, Hit, Hb, Hna. repeat split; try lia; auto.
  - rewrite <- Hfl. clear. generalize (Z.to_nat i) as m.
    induction (arrays eh1) as [|x l IH]; intros [|m]; cbn; try reflexivity.
    f_equal. apply IH.
  - rewrite <- Hst. apply map_alter_fixed. reflexivity.
  - rewrite <- Hsz. apply map_alter_fixed. reflexivity.
Qed.

(** Every way [insert] returns keeps the geometry and the occupied
    slots. *)
Lemma insert_geometry fuel eh key b eh' :
  elastic_hash_insert log2 fuel eh key = Done (b, eh') ->
  n eh' = n eh /\ delta eh' = delta eh /\ beta eh' = beta eh /\
  num_arrays eh' = num_arrays eh /\
  map start (arrays eh') = map start (arrays eh) /\
  map size (arrays eh') = map size (arrays eh) /\
  length (table eh') = length (table eh) /\
  (forall p v, table eh !! p = Some v -> v <> 0 -> table eh' !! p = Some v).
Proof.
  intros H. apply insert_cases in H.
  destruct H as [(Hc & -> & ->) | [(Hc & -> & Hx) | (Hc & -> & Hx)]].
  - repeat split; auto.
  - destruct Hx as (eh1 & i & pos & Hs & -> & Ht).
    destruct Hs as (Htab & Hn & Hd & _ & Hna & Hbe & _ & Hst & Hsz & _).
    unfold table_get in Ht. rewrite Htab in Ht.
    destruct (table eh !! Z.to_nat pos) as [w|] eqn:Ew; [|discriminate].
    injection Ht as ->. simpl. rewrite Htab.
    repeat split; auto.
    + rewrite <- Hst. apply map_alter_fixed. reflexivity.
    + rewrite <- Hsz. apply map_alter_fixed. reflexivity.
    + apply length_insert.
    + intros p v Hp Hv. rewrite list_lookup_insert_ne; [assumption|].
      intros Heq. subst p. congruence.
  - destruct Hx as (eh1 & Hs & Ha).
    destruct Hs as (Htab & Hn & Hd & _ & Hna & Hbe & _ & Hst & Hsz & _).
    apply advance_batch_same_store in Ha.
    destruct Ha as (Htab' & Hn' & Hd' & _ & Hna' & Hbe' & Harr).
    rewrite Harr, Htab'. repeat split; try congruence.
Qed.

(** X5. Stored keys stay where they are and the table keeps its length: over
    any sequence of insert calls, a slot that held a key holds the same key
    afterwards. *)
Theorem stored_keys_stay fuel eh keys bs eh' :
  insert_all log2 fuel eh keys = Done (bs, eh') ->
  length (table eh') = length (table eh) /\
  (forall p v, table eh !! p = Some v -> v <> 0 -> table eh' !! p = Some v).
Proof.
  intros H.
  apply (insert_all_invariant log2
           (fun e => length (table e) = length (table eh) /\
                     forall p v, table eh !! p = Some v -> v <> 0 ->
                                 table e !! p = Some v))
    with (keys := keys) (fuel := fuel) (eh := eh) (bs := bs);
    [|auto|assumption].
  intros fuel0 e key b e' (Hl & Hk) Hstep.
  apply insert_geometry in Hstep.
  destruct Hstep as (_ & _ & _ & _ & _ & _ & Hl' & Hk').
  split; [congruence|]. intros p v Hp Hv. apply Hk'; auto.
Qed.

Lemma init_loop_length k :
  forall b i rem st block arrs cnt,
  init_loop k b i rem st block = Done (arrs, cnt) ->
  length arrs = length block.
Proof.
  induction k as [|k IH]; intros b i rem st block arrs cnt H; simpl in H.
  - now injection H as <- <-.
  - bind_inv H. break_if H.
    + injection H as <- <-. apply length_insert.
    + apply IH in H. rewrite H. apply length_insert.
Qed.

Lemma init_shape heap n_ delta_ eh :
  elastic_hash_init log2 heap n_ delta_ = Done eh ->
  table eh = replicate (Z.to_nat n_) 0 /\
  length (arrays eh) = Z.to_nat (num_arrays eh).
Proof.
  unfold elastic_hash_init; intros H.
  bind_inv H. bind_inv H. bind_inv H.
  destruct (fst a1 !! 0%nat) as [a2|]; [|discriminate].
  bind_inv H. injection H as <-. simpl. split; [reflexivity|].
  destruct a1 as [arrs cnt]. apply init_loop_length in Ha1.
  simpl. rewrite Ha1, length_map, length_seq. reflexivity.
Qed.

Lemma build_shape heap n_ delta_ fuel keys bs eh :
  build log2 heap n_ delta_ fuel keys = Done (bs, eh) ->
  exists eh0,
    elastic_hash_init log2 heap n_ delta_ = Done eh0 /\
    length (table eh) = Z.to_nat n_ /\
    length (arrays eh) = Z.to_nat (num_arrays eh) /\
    (forall i, 0 <= i < num_arrays eh -> exists a, get_array eh i = Done a) /\
    n eh = n_ /\ delta eh = delta_ /\ beta eh = beta eh0 /\
    num_arrays eh = num_arrays eh0 /\
    map start (arrays eh) = map start (arrays eh0) /\
    map size (arrays eh) = map size (arrays eh0).
Proof.
  unfold build; intros H. bind_inv H. exists a. split; [assumption|].
  pose proof (init_shape _ _ _ _ Ha) as (Htab & Hlen).
  pose proof (init_fields _ _ _ _ _ Ha) as (Hn & Hd & _).
  set (P := fun e => length (table e) = Z.to_nat n_ /\ n e = n_ /\
              delta e = delta_ /\ beta e = beta a /\
              num_arrays e = num_arrays a /\
              map start (arrays e) = map start (arrays a) /\
              map size (arrays e) = map size (arrays a)).
  assert (Hinv : P eh).
  { apply (insert_all_invariant log2 P) with (keys := keys) (fuel := fuel)
      (eh := a) (bs := bs); unfold P; [| |assumption].
    - intros fuel0 e key b e' (H1 & H2 & H3 & H4 & H5 & H6 & H7) Hstep.
      apply insert_geometry in Hstep.
      destruct Hstep as (G1 & G2 & G3 & G4 & G5 & G6 & G7 & _).
      repeat split; congruence.
    - rewrite Htab, length_replicate. auto 10. }
  destruct Hinv as (H1 & H2 & H3 & H4 & H5 & H6 & H7).
  assert (Hl : length (arrays eh) = Z.to_nat (num_arrays eh)).
  { rewrite H5, <- Hlen, <- (length_map start (arrays eh)), H6.
    apply length_map. }
  repeat split; auto.
  intros i Hi. unfold get_array.
  destruct (arrays eh !! Z.to_nat i) as [x|] eqn:E; [eauto|].
  apply lookup_ge_None in E. lia.
Qed.

(** X6. The shape of the table is fixed at construction: after any sequence
    of insert calls the table has [n] slots, the sub-array block has
    [num_arrays] entries (so every index below [num_arrays] is inside the
    block), and the capacity, slack, beta, number, offsets and sizes of the
    sub-arrays are those of the construction. *)
Theorem shape_is_fixed heap n_ delta_ fuel keys bs eh :
  build log2 heap n_ delta_ fuel keys = Done (bs, eh) ->
  exists eh0,
    elastic_hash_init log2 heap n_ delta_ = Done eh0 /\
    length (table eh) = Z.to_nat n_ /\
    length (arrays eh) = Z.to_nat (num_arrays eh) /\
    (forall i, 0 <= i < num_arrays eh -> exists a, get_array eh i = Done a) /\
    n eh = n_ /\ delta eh = delta_ /\ beta eh = beta eh0 /\
    num_arrays eh = num_arrays eh0 /\
    map start (arrays eh) = map start (arrays eh0) /\
    map size (arrays eh) = map size (arrays eh0).
Proof. apply build_shape. Qed.

Lemma occupied_replicate m : occupied (replicate m 0) = 0.
Proof. induction m as [|m IH]; simpl; auto. Qed.

Lemma occupied_cons x l :
  occupied (x :: l) = occupied l + (if x =? 0 then 0 else 1).
Proof. unfold occupied; cbn [fold_right]. destruct (x =? 0); lia. Qed.

Lemma occupied_insert (l : list Z) p k :
  l !! p = Some 0 ->
  occupied (<[p:=k]> l) = occupied l + (if k =? 0 then 0 else 1).
Proof.
  revert p; induction l as [|x l IH]; intros p Hp; [discriminate|].
  destruct p as [|p].
  - change ((x :: l) !! 0%nat) with (Some x) in Hp. injection Hp as ->.
    change (<[0%nat:=k]> (0 :: l)) with (k :: l).
    rewrite !occupied_cons. change (0 =? 0) with true. cbv iota.
    destruct (k =? 0); lia.
  - change ((x :: l) !! S p) with (l !! p) in Hp.
    change (<[S p:=k]> (x :: l)) with (x :: <[p:=k]> l).
    rewrite !occupied_cons, (IH _ Hp). destruct (x =? 0), (k =? 0); lia.
Qed.

Lemma insert_occupied fuel eh key b eh' :
  elastic_hash_insert log2 fuel eh key = Done (b, eh') ->
  occupied (table eh')
  = occupied (table eh) + (if b then if key =? 0 then 0 else 1 else 0).
Proof.
  intros H. apply insert_cases in H.
  destruct H as [(Hc & -> & ->) | [(Hc & -> & Hx) | (Hc & -> & Hx)]].
  - lia.
  - destruct Hx as (eh1 & i & pos & Hs & -> & Ht).
    destruct Hs as (Htab & _). unfold table_get in Ht.
    destruct (table eh1 !! Z.to_nat pos) as [w|] eqn:Ew; [|discriminate].
    injection Ht as ->. simpl. rewrite (occupied_insert _ _ _ Ew), Htab.
    reflexivity.
  - destruct Hx as (eh1 & Hs & Ha). destruct Hs as (Htab & _).
    apply advance_batch_same_store in Ha. destruct Ha as (Htab' & _).
    rewrite Htab', Htab. lia.
Qed.

Lemma insert_all_occupied keys :
  forall fuel eh bs eh',
  insert_all log2 fuel eh keys = Done (bs, eh') ->
  Forall (fun k => k <> 0) keys ->
  occupied (table eh') = occupied (table eh) + stored bs.
Proof.
  induction keys as [|key rest IH]; intros fuel eh bs eh' H Hnz; simpl in H.
  - injection H as <- <-. simpl. lia.
  - bind_inv H. bind_inv H. injection H as <- <-.
    destruct a as [b e1], a0 as [bs1 e2]. simpl in *.
    inversion Hnz as [|? ? Hk Hrest]; subst.
    rewrite (IH _ _ _ _ Ha0 Hrest), (insert_occupied _ _ _ _ _ Ha).
    apply Z.eqb_neq in Hk. rewrite Hk. destruct b; lia.
Qed.

(** X7. With keys other than 0, the number of occupied slots is the number
    of insert calls that returned [true], and [items] is that number
    reduced modulo 2^64. *)
Theorem occupied_is_stored heap n_ delta_ fuel keys bs eh :
  build log2 heap n_ delta_ fuel keys = Done (bs, eh) ->
  Forall (fun k => k <> 0) keys ->
  occupied (table eh) = stored bs /\ items eh = Num.wrap (occupied (table eh)).
Proof.
  unfold build; intros H Hnz. bind_inv H.
  pose proof (init_shape _ _ _ _ Ha) as (Htab & _).
  pose proof (init_fields _ _ _ _ _ Ha) as (_ & _ & Hi & _).
  pose proof (insert_all_occupied _ _ _ _ _ H Hnz) as Ho.
  rewrite Htab, occupied_replicate, Z.add_0_l in Ho.
  split; [assumption|]. rewrite Ho.
  pose proof (insert_all_items _ _ _ _ _ _ H) as E.
  rewrite Hi, Z.add_0_l in E. rewrite <- E.
  symmetry. apply wrap_small.
  set (P := fun e => 0 <= items e < Num.modulus).
  assert (Hr : P eh).
  { apply (insert_all_invariant log2 P) with (keys := keys) (fuel := fuel)
      (eh := a) (bs := bs); unfold P;
      [|rewrite Hi; unfold Num.modulus; lia|assumption].
    intros fuel0 e key b e' Hr Hstep. apply insert_items in Hstep.
    destruct Hstep as (_ & _ & -> & _). destruct b; [apply wrap_range|auto]. }
  exact Hr.
Qed.

(** X8. The key 0 takes capacity without being stored: when insert of the
    key 0 returns [true], no slot of the table has changed, and [items] has
    grown by one. *)
Theorem insert_zero_key fuel eh eh' :
  elastic_hash_insert log2 fuel eh 0 = Done (true, eh') ->
  table eh' = table eh /\ items eh' = Num.wrap (items eh + 1).
Proof.
  intros H. apply insert_cases in H.
  destruct H as [(_ & Hb & _) | [(_ & _ & Hx) | (_ & Hb & _)]];
    try discriminate.
  destruct Hx as (eh1 & i & pos & Hs & -> & Ht).
  destruct Hs as (Htab & _ & _ & Hit & _). unfold table_get in Ht.
  destruct (table eh1 !! Z.to_nat pos) as [w|] eqn:Ew; [|discriminate].
  injection Ht as ->. simpl. rewrite (list_insert_id _ _ _ Ew), Htab, Hit.
  auto.
Qed.

(** X9. A slack for which beta is 0 cannot be constructed: the first round
    of the sizing loop divides by beta. *)
Theorem init_beta_zero heap n_ delta_ na :
  beta_of log2 delta_ = Done 0 ->
  num_arrays_of log2 delta_ = Done na -> 0 < na ->
  elastic_hash_init log2 heap n_ delta_ = Fault DivByZero.
Proof.
  intros Hb Hna Hpos. unfold elastic_hash_init.
  rewrite Hb, Hna. cbn [bind].
  destruct (Z.to_nat na) as [|k] eqn:E; [lia|].
  cbn [init_loop]. unfold Num.umod. change (0 =? 0) with true.
  reflexivity.
Qed.

(** *** A table whose sub-arrays are all empty *)

Section Untouched.

(** What the text of [compute_f] and of case 1 needs of the double
    arithmetic: log2 1 = 0, log2 (1 / delta) is not negative, and
    delta / 2 < 1. *)
Variable delta_ : float.
Hypothesis log2_one : log2 1%float = 0%float.
Hypothesis log_delta_nonneg :
  PrimFloat.ltb (log2 (1 / delta_)%float) 0%float = false.
Hypothesis half_delta_below_one :
  PrimFloat.ltb (delta_ / 2)%float 1%float = true.

Lemma compute_f_one : compute_f log2 1%float delta_ = Done 0.
Proof.
  unfold compute_f.
  change (1 / 1)%float with 1%float. rewrite log2_one.
  change (0 * 0)%float with 0%float.
  unfold Num.fmin. change (PrimFloat.is_nan 0) with false. cbv iota.
  rewrite log_delta_nonneg.
  destruct (PrimFloat.is_nan (log2 (1 / delta_)%float)); reflexivity.
Qed.

Lemma alter_same (f : SubArray -> SubArray) (l : list SubArray) i a :
  l !! i = Some a -> f a = a -> alter f i l = l.
Proof.
  revert i; induction l as [|x l IH]; intros [|i] Hi Hf; try discriminate.
  - change ((x :: l) !! 0%nat) with (Some x) in Hi. injection Hi as ->.
    change (alter f 0%nat (a :: l)) with (f a :: l). now rewrite Hf.
  - change ((x :: l) !! S i) with (l !! i) in Hi.
    change (alter f (S i) (x :: l)) with (x :: alter f i l).
    f_equal. now apply IH.
Qed.

Lemma with_arrays_same eh : with_arrays eh (arrays eh) = eh.
Proof. destruct eh; reflexivity. Qed.

Lemma untouched_lookup eh i :
  Forall untouched (arrays eh) ->
  length (arrays eh) = Z.to_nat (num_arrays eh) ->
  0 <= i < num_arrays eh ->
  exists a, get_array eh i = Done a /\ untouched a /\
            with_arrays eh
              (alter (fun x => set_epsilon x 1%float) (Z.to_nat i) (arrays eh))
            = eh.
Proof.
  intros Hall Hlen Hi. unfold get_array.
  destruct (arrays eh !! Z.to_nat i) as [a|] eqn:E;
    [|apply lookup_ge_None in E; lia].
  exists a. split; [reflexivity|].
  assert (Hu : untouched a) by (eapply Forall_lookup_1; eauto).
  split; [assumption|].
  rewrite (alter_same _ _ _ a E); [apply with_arrays_same|].
  destruct a as [s z f e], Hu as [He _]. simpl in He. subst e. reflexivity.
Qed.

(** The loop of [insert] passes over sub-arrays that hold nothing without a
    probe and leaves the state as it is. *)
Lemma insert_loop_untouched fuel key eh :
  delta eh = delta_ ->
  Forall untouched (arrays eh) ->
  length (arrays eh) = Z.to_nat (num_arrays eh) ->
  num_arrays eh < Num.modulus ->
  forall k i,
  0 <= i -> i + Z.of_nat k = num_arrays eh ->
  insert_loop log2 fuel k eh key i = Done (false, eh).
Proof.
  intros Hd Hall Hlen Hmod k; induction k as [|k IH]; intros i Hi Hk;
    [reflexivity|].
  cbn [insert_loop]. unfold insert_body.
  destruct (untouched_lookup eh i Hall Hlen ltac:(lia))
    as (a & Ha & (_ & Heps) & Hsame).
  rewrite Ha. cbn [bind]. rewrite Heps, Hsame, Hd.
  rewrite (wrap_small (num_arrays eh - 1)) by lia.
  rewrite half_delta_below_one, andb_true_r.
  destruct (i <? num_arrays eh - 1) eqn:E.
  - apply Z.ltb_lt in E.
    destruct (untouched_lookup eh (i + 1) Hall Hlen ltac:(lia))
      as (nx & Hnx & (Hnx1 & _) & _).
    rewrite Hnx. cbn [bind]. rewrite Hnx1.
    change (PrimFloat.ltb 0.25 1) with true. cbn [bind].
    rewrite compute_f_one. cbn [bind Z.to_nat probe_bounded].
    apply IH; lia.
  - apply Z.ltb_ge in E. cbn [bind].
    assert (Hlast : (i + 1 <? num_arrays eh) = false)
      by (apply Z.ltb_ge; lia).
    rewrite Hlast, andb_false_r. cbn [bind].
    apply IH; lia.
Qed.

(** X10. A table whose sub-arrays all hold nothing accepts no key: when
    every entry of the block is as the construction writes it, the loop of
    insert allows each sub-array [compute_f (1, delta) = 0] probes and case 3
    never applies, so below capacity the call only advances the batch and
    returns [false]. *)
Theorem insert_into_untouched fuel eh key bi :
  delta eh = delta_ ->
  Forall untouched (arrays eh) ->
  length (arrays eh) = Z.to_nat (num_arrays eh) ->
  num_arrays eh < Num.modulus ->
  batch_index log2 eh = Done bi ->
  elastic_hash_insert log2 fuel eh key
  = if at_capacity eh then Done (false, eh)
    else do eh' <- advance_batch log2 eh; Done (false, eh').
Proof.
  intros Hd Hall Hlen Hmod Hbi. unfold elastic_hash_insert.
  destruct (at_capacity eh); [reflexivity|].
  rewrite Hbi. cbn [bind].
  pose proof (to_size_t_range _ _ Hbi) as Hr.
  destruct (Z.to_nat (num_arrays eh - bi)) as [|k] eqn:Ek.
  - reflexivity.
  - rewrite (insert_loop_untouched fuel key eh Hd Hall Hlen Hmod (S k) bi)
      by lia.
    reflexivity.
Qed.

(** X11. And nothing is found in it: search allows every sub-array no probe
    and returns -1, whatever the key. *)
Theorem search_in_untouched eh key :
  delta eh = delta_ ->
  Forall untouched (arrays eh) ->
  length (arrays eh) = Z.to_nat (num_arrays eh) ->
  0 <= num_arrays eh ->
  elastic_hash_search log2 eh key = Done (-1).
Proof.
  intros Hd Hall Hlen Hn. unfold elastic_hash_search.
  rewrite <- (Nat.add_0_r (Z.to_nat (num_arrays eh))).
  rewrite search_loop_skips; [reflexivity|].
  intros i Hi.
  destruct (untouched_lookup eh i Hall Hlen ltac:(lia))
    as (a & Ha & (He & _) & _).
  exists 0, 0. split; [|split; [lia|split; [intros; lia|auto]]].
  exists a. split; [assumption|]. rewrite He, Hd. apply compute_f_one.
Qed.

End Untouched.

(** *** Fuel *)

Lemma probe_unbounded_mono fuel :
  forall fuel' eh key i j r,
  (fuel <= fuel')%nat ->
  probe_unbounded log2 fuel eh key i j = r -> r <> Timeout ->
  probe_unbounded log2 fuel' eh key i j = r.
Proof.
  induction fuel as [|f IH]; intros fuel' eh key i j r Hle H Hr;
    [simpl in H; congruence|].
  destruct fuel' as [|f']; [lia|].
  cbn [probe_unbounded] in H |- *.
  destruct (probe_sequence log2 eh key i j) as [pos| |]; cbn [bind] in *;
    try assumption.
  destruct (table_get eh pos) as [v| |]; cbn [bind] in *; try assumption.
  destruct (v =? 0); [assumption|]. apply IH; auto. lia.
Qed.

Lemma insert_body_mono
    (U U' : ElasticHash -> Z -> Z -> outcome ElasticHash)
    (C C' : ElasticHash -> outcome (bool * ElasticHash)) eh key i r :
  (forall e k x q, U e k x = q -> q <> Timeout -> U' e k x = q) ->
  (forall e q, C e = q -> q <> Timeout -> C' e = q) ->
  insert_body log2 U C eh key i = r -> r <> Timeout ->
  insert_body log2 U' C' eh key i = r.
Proof.
  intros HU HC H Hr. unfold insert_body in *.
  destruct (get_array eh i) as [cur| |]; cbn [bind] in *; try assumption.
  match type of H with
  | context [with_arrays eh ?l] => generalize dependent (with_arrays eh l)
  end.
  match goal with
  | |- context [(1 - ?x / ?y)%float] => generalize (1 - x / y)%float
  end.
  intros eps eh1 H.
  match type of H with
  | bind ?m _ = _ => destruct m as [c1| |]
  end; cbn [bind] in *; try assumption.
  destruct c1.
  - destruct (compute_f log2 eps (delta eh1)) as [f| |]; cbn [bind] in *;
      try assumption.
    destruct (probe_bounded log2 (Z.to_nat f) eh1 key i 0) as [[e2|]| |];
      cbn [bind] in *; try assumption.
    apply HC; assumption.
  - destruct (PrimFloat.leb eps (delta eh1 / 2) && (i + 1 <? num_arrays eh1));
      [apply HC; assumption|].
    match type of H with
    | bind ?m _ = _ => destruct m as [c3| |]
    end; cbn [bind] in *; try assumption.
    destruct c3; [|apply HC; assumption].
    destruct (U eh1 key i) as [e2| |] eqn:EU; cbn [bind] in *.
    + rewrite (HU _ _ _ _ EU) by discriminate. assumption.
    + rewrite (HU _ _ _ _ EU) by discriminate. assumption.
    + congruence.
Qed.

Lemma insert_loop_mono fuel fuel' key k :
  (fuel <= fuel')%nat ->
  forall eh i r,
  insert_loop log2 fuel k eh key i = r -> r <> Timeout ->
  insert_loop log2 fuel' k eh key i = r.
Proof.
  intros Hle; induction k as [|k IH]; intros eh i r H Hr; [assumption|].
  cbn [insert_loop] in *.
  eapply insert_body_mono; [| |exact H|exact Hr].
  - intros e k0 x q Hq Hnt. cbv beta in *.
    eapply probe_unbounded_mono; eauto.
  - intros e q Hq Hnt. cbv beta in *. apply IH; assumption.
Qed.

(** More fuel does not change a result: a call that returns or faults with
    some fuel does the same with any larger amount. *)
Lemma insert_fuel_monotone fuel fuel' eh key r :
  (fuel <= fuel')%nat ->
  elastic_hash_insert log2 fuel eh key = r -> r <> Timeout ->
  elastic_hash_insert log2 fuel' eh key = r.
Proof.
  intros Hle H Hr. unfold elastic_hash_insert in *.
  destruct (at_capacity eh); [assumption|].
  destruct (batch_index log2 eh) as [bi| |]; cbn [bind] in *; try assumption.
  destruct (insert_loop log2 fuel (Z.to_nat (num_arrays eh - bi)) eh key bi)
    as [res| |] eqn:E; cbn [bind] in *.
  - rewrite (insert_loop_mono fuel fuel' key _ Hle _ _ _ E) by discriminate.
    assumption.
  - rewrite (insert_loop_mono fuel fuel' key _ Hle _ _ _ E) by discriminate.
    assumption.
  - congruence.
Qed.

(** *** The first empty probe *)

Lemma probe_bounded_first cnt eh key i eh' :
  forall j,
  probe_bounded log2 cnt eh key i j = Done (Some eh') ->
  exists j' pos,
    j <= j' /\ probes_empty log2 eh key i j' pos /\
    (forall x, j <= x < j' -> probes_occupied log2 eh key i x) /\
    eh' = place eh i pos key.
Proof.
  induction cnt as [|c IH]; intros j H; cbn [probe_bounded] in H;
    [discriminate|].
  bind_inv H. bind_inv H. destruct (a0 =? 0) eqn:E.
  - apply Z.eqb_eq in E. subst a0. injection H as <-.
    exists j, a. split; [lia|]. split; [split; assumption|].
    split; [intros; lia|reflexivity].
  - apply IH in H. destruct H as (j' & pos & Hle & He & Hocc & ->).
    exists j', pos. split; [lia|]. split; [exact He|]. split; [|reflexivity].
    intros x Hx. destruct (Z.eq_dec x j) as [->|Hne]; [|apply Hocc; lia].
    exists a, a0. split; [assumption|]. split; [assumption|].
    apply Z.eqb_neq; exact E.
Qed.

(** The attempts of case 3 are counted in [size_t]: attempt number [d] is
    probe [d mod 2^64]. *)
Lemma probe_unbounded_first fuel eh key i eh' :
  forall s : nat,
  probe_unbounded log2 fuel eh key i (Num.wrap (Z.of_nat s)) = Done eh' ->
  exists (d : nat) pos,
    (s <= d)%nat /\
    probes_empty log2 eh key i (Num.wrap (Z.of_nat d)) pos /\
    (forall x : nat, (s <= x < d)%nat ->
       probes_occupied log2 eh key i (Num.wrap (Z.of_nat x))) /\
    eh' = place eh i pos key.
Proof.
  induction fuel as [|f IH]; intros s H; cbn [probe_unbounded] in H;
    [discriminate|].
  bind_inv H. bind_inv H. destruct (a0 =? 0) eqn:E.
  - apply Z.eqb_eq in E. subst a0. injection H as <-.
    exists s, a. split; [lia|]. split; [split; assumption|].
    split; [intros; lia|reflexivity].
  - assert (Hw : Num.wrap (Num.wrap (Z.of_nat s) + 1)
                 = Num.wrap (Z.of_nat (S s))).
    { unfold Num.wrap. rewrite Zplus_mod_idemp_l. f_equal. lia. }
    rewrite Hw in H. apply IH in H.
    destruct H as (d & pos & Hle & He & Hocc & ->).
    exists d, pos. split; [lia|]. split; [exact He|]. split; [|reflexivity].
    intros x Hx. destruct (Nat.eq_dec x s) as [->|Hne]; [|apply Hocc; lia].
    exists a, a0. split; [assumption|]. split; [assumption|].
    apply Z.eqb_neq; exact E.
Qed.

Lemma insert_loop_first fuel k eh key eh' :
  forall i,
  insert_loop log2 fuel k eh key i = Done (true, eh') ->
  exists eh1 i1 j pos,
    same_but_epsilon eh eh1 /\ i <= i1 < i + Z.of_nat k /\ 0 <= j /\
    probes_empty log2 eh1 key i1 j pos /\
    (forall x, 0 <= x < j -> probes_occupied log2 eh1 key i1 x) /\
    eh' = place eh1 i1 pos key.
Proof.
  revert eh; induction k as [|k IH]; intros eh i H; [discriminate|].
  cbn [insert_loop] in H. unfold insert_body in H. bind_inv H.
  match type of H with
  | context [with_arrays eh ?l] =>
      assert (Hs : same_but_epsilon eh (with_arrays eh l))
        by apply set_epsilon_same;
      remember (with_arrays eh l) as eh1 eqn:E; clear E
  end.
  assert (Hrec : insert_loop log2 fuel k eh1 key (i + 1) = Done (true, eh') ->
            exists eh2 i1 j pos, same_but_epsilon eh eh2 /\
              i <= i1 < i + Z.of_nat (S k) /\ 0 <= j /\
              probes_empty log2 eh2 key i1 j pos /\
              (forall x, 0 <= x < j -> probes_occupied log2 eh2 key i1 x) /\
              eh' = place eh2 i1 pos key).
  { intros Hj. destruct (IH _ _ Hj) as (eh2 & i1 & j & pos & H1 & H2 & H3).
    exists eh2, i1, j, pos. split; [|split; [lia|assumption]].
    eapply same_but_epsilon_trans; eauto. }
  bind_inv H. destruct a0.
  - bind_inv H. bind_inv H. destruct a1 as [eh2|]; [|auto].
    injection H as <-.
    match goal with
    | Hp : probe_bounded _ _ _ _ _ _ = Done (Some _) |- _ =>
        destruct (probe_bounded_first _ _ _ _ _ _ Hp)
          as (j & pos & Hj & He & Hocc & ->)
    end.
    exists eh1, i, j, pos. split; [exact Hs|]. split; [lia|].
    split; [exact Hj|]. split; [exact He|]. split; [|reflexivity].
    intros x Hx. apply Hocc. exact Hx.
  - break_if H; [auto|].
    bind_inv H. destruct a0; [|auto].
    bind_inv H. injection H as <-.
    match goal with
    | Hp : probe_unbounded _ _ _ _ _ _ = Done _ |- _ =>
        destruct (probe_unbounded_first _ _ _ _ _ 0%nat Hp)
          as (d & pos & _ & He & Hocc & ->)
    end.
    pose proof (wrap_range (Z.of_nat d)) as Hd.
    exists eh1, i, (Num.wrap (Z.of_nat d)), pos.
    split; [exact Hs|]. split; [lia|]. split; [lia|].
    split; [exact He|]. split; [|reflexivity].
    intros x Hx.
    assert (Hle : Num.wrap (Z.of_nat d) <= Z.of_nat d)
      by (unfold Num.wrap; apply Z.mod_le; [lia|reflexivity]).
    replace x with (Num.wrap (Z.of_nat (Z.to_nat x)))
      by (rewrite Z2Nat.id by lia; apply wrap_small; lia).
    apply Hocc. lia.
Qed.

Lemma same_but_epsilon_probe eh eh1 key i j p :
  same_but_epsilon eh eh1 ->
  probe_sequence log2 eh1 key i j = Done p ->
  probe_sequence log2 eh key i j = Done p.
Proof.
  intros Hs H. unfold probe_sequence in *. bind_inv H.
  rewrite Ha; cbn [bind]. cbv zeta in *. bind_inv H.
  unfold get_array in Ha0 |- *.
  destruct (arrays eh1 !! Z.to_nat i) as [x|] eqn:Ei; [|discriminate].
  injection Ha0 as ->.
  destruct (same_but_epsilon_lookup _ _ _ _ Hs Ei) as (a' & Ha' & E1 & E2 & _).
  rewrite Ha'; cbn [bind]. rewrite E1, E2. exact H.
Qed.

Lemma same_but_epsilon_get eh eh1 p v :
  same_but_epsilon eh eh1 ->
  table_get eh1 p = Done v -> table_get eh p = Done v.
Proof. intros (Htab & _). unfold table_get. now rewrite Htab. Qed.

(** X12. Insert stores the key at the first empty probe of the sub-array it
    picks: when insert returns [true], the key was written at the slot of
    some probe [j] of a sub-array [i], that slot was empty, and every
    earlier probe of that sub-array had landed on an occupied slot; this
    holds for the probing of case 1 and of case 3 alike. *)
Theorem insert_first_empty_probe fuel eh key eh' :
  elastic_hash_insert log2 fuel eh key = Done (true, eh') ->
  exists i j pos,
    0 <= i < num_arrays eh /\ 0 <= j /\
    probes_empty log2 eh key i j pos /\
    (forall j', 0 <= j' < j -> probes_occupied log2 eh key i j') /\
    table eh' = <[Z.to_nat pos := key]> (table eh).
Proof.
  unfold elastic_hash_insert; intros H.
  destruct (at_capacity eh); [discriminate|].
  bind_inv H. bind_inv H. destruct a0 as [b eh2]; simpl in H.
  destruct b; [|bind_inv H; discriminate]. injection H as <-.
  apply insert_loop_first in Ha0.
  destruct Ha0 as (eh1 & i & j & pos & Hs & Hi & Hj & He & Hocc & ->).
  pose proof (to_size_t_range _ _ Ha) as Hr.
  exists i, j, pos. split; [lia|]. split; [exact Hj|].
  split; [|split].
  - destruct He as [Hp Ht]. split.
    + eapply same_but_epsilon_probe; eauto.
    + eapply same_but_epsilon_get; eauto.
  - intros j' Hj'. destruct (Hocc j' Hj') as (p & v & Hp & Ht & Hv).
    exists p, v. split; [eapply same_but_epsilon_probe; eauto|].
    split; [eapply same_but_epsilon_get; eauto|exact Hv].
  - destruct Hs as (Htab & _). simpl. now rewrite Htab.
Qed.

(** *** Probes stay inside the table *)

Lemma partition_within k :
  forall b rem st,
  0 < b -> b <= rem -> 0 <= st ->
  Forall (fun a => st <= start a /\ 0 < size a /\
                   start a + size a <= st + rem)
         (partition k b rem st).
Proof.
  induction k as [|k IH]; intros b rem st Hb Hr Hst; cbn [partition];
    [constructor|].
  destruct (cut_size_multiple b rem Hb Hr) as (m & Hm & Es & Hs).
  assert (0 < cut_size b rem) by nia.
  constructor; [simpl; lia|].
  destruct (rem - cut_size b rem <? b) eqn:E; [constructor|].
  apply Z.ltb_ge in E.
  eapply Forall_impl; [apply IH; lia|].
  intros a (H1 & H2 & H3). simpl in *. lia.
Qed.

Lemma init_arrays_of_init heap n_ delta_ eh :
  elastic_hash_init log2 heap n_ delta_ = Done eh ->
  exists cnt, init_arrays log2 heap n_ delta_ = Done (arrays eh, cnt).
Proof.
  unfold elastic_hash_init, init_arrays; intros H.
  bind_inv H. bind_inv H. bind_inv H.
  rewrite Ha; cbn [bind]. rewrite Ha0; cbn [bind].
  destruct a1 as [arrs cnt]. rewrite Ha1.
  destruct (fst (arrs, cnt) !! 0%nat); [|discriminate].
  bind_inv H. injection H as <-. simpl. eauto.
Qed.

Lemma map_eq_lookup {B : Type} (g : SubArray -> B) (l l' : list SubArray) i a :
  map g l = map g l' -> l' !! i = Some a ->
  exists a', l !! i = Some a' /\ g a' = g a.
Proof.
  revert l' i; induction l as [|x l IH]; intros [|y l'] i Hm Hi;
    try discriminate.
  cbn [map] in Hm. injection Hm as H1 H2.
  destruct i as [|i].
  - change ((y :: l') !! 0%nat) with (Some y) in Hi. injection Hi as ->.
    exists x. auto.
  - change ((y :: l') !! S i) with (l' !! i) in Hi.
    change ((x :: l) !! S i) with (l !! i). eauto.
Qed.

(** X13. Probes of the sub-arrays the construction has written stay inside
    the table: when beta is positive, the capacity is at least beta and its
    triple fits in 64 bits, then in every state reached by insert calls a
    probe of any key in one of those sub-arrays, once [phi] has given its
    code, lands inside the region of the sub-array, below [n], on a slot
    the table has. *)
Theorem written_probes_in_table heap n_ delta_ b arrs cnt fuel keys bs eh :
  beta_of log2 delta_ = Done b ->
  0 < b -> b <= n_ -> n_ * 3 < 2 ^ 64 ->
  init_arrays log2 heap n_ delta_ = Done (arrs, cnt) ->
  build log2 heap n_ delta_ fuel keys = Done (bs, eh) ->
  forall key i j h,
    0 <= i < Z.of_nat cnt ->
    phi log2 i j = Done h ->
    exists a pos v,
      get_array eh i = Done a /\
      probe_sequence log2 eh key i j = Done pos /\
      start a <= pos < start a + size a /\ 0 <= pos < n_ /\
      table_get eh pos = Done v.
Proof.
  intros Hbeta Hb Hn H3 Hinit Hbuild key i j h Hi Hphi.
  destruct (build_shape _ _ _ _ _ _ _ Hbuild)
    as (eh0 & Hinit0 & Hlen & _ & _ & _ & _ & _ & _ & Hst & Hsz).
  destruct (init_arrays_of_init _ _ _ _ Hinit0) as (cnt0 & Hinit1).
  rewrite Hinit in Hinit1. injection Hinit1 as -> <-.
  unfold init_arrays in Hinit. rewrite Hbeta in Hinit. cbn [bind] in Hinit.
  bind_inv Hinit.
  apply init_loop_partition in Hinit;
    try (unfold Num.modulus; lia);
    [|rewrite length_map, length_seq; lia].
  destruct Hinit as (Htake & Hcnt & _).
  change (take 0 (map heap (seq 0 (Z.to_nat a)))) with (@nil SubArray) in Htake.
  rewrite app_nil_l in Htake.
  pose proof (partition_within (Z.to_nat a) b n_ 0 Hb Hn ltac:(lia)) as Hw.
  rewrite <- Htake in Hw.
  destruct (arrays eh0 !! Z.to_nat i) as [a0|] eqn:E0.
  2:{ apply lookup_ge_None in E0.
      assert (Hlp : length (take cnt (arrays eh0))
                    = length (partition (Z.to_nat a) b n_ 0))
        by now rewrite Htake.
      rewrite length_take in Hlp. lia. }
  assert (Hin : take cnt (arrays eh0) !! Z.to_nat i = Some a0)
    by (rewrite lookup_take_lt by lia; assumption).
  pose proof (Forall_lookup_1 _ _ _ _ Hw Hin) as (W1 & W2 & W3).
  destruct (map_eq_lookup start _ _ _ _ Hst E0) as (a1 & E1 & S1).
  destruct (map_eq_lookup size _ _ _ _ Hsz E0) as (a2 & E2 & S2).
  rewrite E1 in E2. injection E2 as <-.
  unfold probe_sequence, get_array. rewrite Hphi, E1. cbn [bind].
  unfold Num.umod. destruct (size a1 =? 0) eqn:Ez;
    [apply Z.eqb_eq in Ez; lia|]. cbn [bind].
  pose proof (Z.mod_pos_bound (Z.lxor h key) (size a1) ltac:(lia)) as Hm.
  rewrite wrap_small by (unfold Num.modulus; lia).
  assert (Hpos : 0 <= start a1 + Z.lxor h key mod size a1 < n_) by lia.
  unfold table_get.
  destruct (table eh !! Z.to_nat (start a1 + Z.lxor h key mod size a1))
    as [v|] eqn:Ev; [|apply lookup_ge_None in Ev; lia].
  exists a1, (start a1 + Z.lxor h key mod size a1), v.
  repeat split; try reflexivity; try lia.
  now rewrite Ev.
Qed.

End Insert.

(** ** The codes of [phi] for one sub-array *)

Lemma Done_inj {A : Type} (x y : A) : Done x = Done y -> x = y.
Proof. intros H. now injection H. Qed.

Lemma lor_low x k c :
  0 <= k -> 0 <= c < 2 ^ k -> Z.lor (x * 2 ^ k) c = x * 2 ^ k + c.
Proof.
  intros Hk Hc.
  assert (Hland : Z.land (x * 2 ^ k) c = 0).
  { apply Z.bits_inj'. intros m Hm. rewrite Z.land_spec, Z.bits_0.
    destruct (Z.lt_ge_cases m k).
    - now rewrite Z.mul_pow2_bits_low by lia.
    - replace c with (c mod 2 ^ k) by (apply Z.mod_small; lia).
      rewrite Z.mod_pow2_bits_high by lia. apply andb_false_r. }
  rewrite <- Z.lxor_lor, <- Z.add_nocarry_lxor; auto.
Qed.

Lemma interleave_round res j :
  0 <= res -> 4 * res < Num.modulus -> 0 <= j ->
  Z.lor (Z.lor (Num.wrap (Z.shiftl res 2))
               (Num.wrap (Z.shiftl (Z.land j 1) 1))) 1
  = 4 * res + 2 * (j mod 2) + 1.
Proof.
  intros Hres Hsmall Hj.
  pose proof (Z.mod_pos_bound j 2 ltac:(lia)) as Hb.
  rewrite Z.shiftl_mul_pow2 by lia.
  change 1 with (Z.ones 1) at 1. rewrite Z.land_ones by lia.
  change (2 ^ 1) with 2.
  rewrite Z.shiftl_mul_pow2 by lia. change (2 ^ 1) with 2.
  rewrite (wrap_small (res * 2 ^ 2)) by (change (2 ^ 2) with 4; lia).
  rewrite (wrap_small (j mod 2 * 2)) by (unfold Num.modulus; lia).
  rewrite (lor_low res 2 (j mod 2 * 2)) by (change (2 ^ 2) with 4; lia).
  change (2 ^ 2) with 4.
  replace (res * 4 + j mod 2 * 2) with ((2 * res + j mod 2) * 2 ^ 1)
    by (change (2 ^ 1) with 2; lia).
  rewrite (lor_low _ 1 1) by (change (2 ^ 1) with 2; lia).
  change (2 ^ 1) with 2. lia.
Qed.

(** While nothing overflows, the loop of [phi] is [weave]. *)
Lemma interleave_weave r :
  forall a b res j,
  0 <= a -> 0 <= b -> a + 2 * b <= 64 ->
  0 <= res < 2 ^ a -> 0 <= j < 2 ^ b ->
  interleave r res j = weave r res j.
Proof.
  induction r as [|r IH]; intros a b res j Ha Hb Hab Hres Hj; [reflexivity|].
  cbn [interleave weave]. destruct (0 <? j) eqn:E; [|reflexivity].
  apply Z.ltb_lt in E.
  assert (Hb1 : 1 <= b).
  { destruct (Z.eq_dec b 0) as [->|]; [change (2 ^ 0) with 1 in Hj; lia|lia]. }
  assert (Hp : 2 ^ (a + 2) = 4 * 2 ^ a)
    by (rewrite Z.pow_add_r by lia; change (2 ^ 2) with 4; lia).
  assert (Hq : 2 ^ b = 2 * 2 ^ (b - 1)).
  { replace b with (1 + (b - 1)) at 1 by lia.
    rewrite Z.pow_add_r by lia. reflexivity. }
  assert (Hle : 2 ^ (a + 2) <= 2 ^ 64) by (apply Z.pow_le_mono_r; lia).
  pose proof (Z.mod_pos_bound j 2 ltac:(lia)) as Hm.
  rewrite interleave_round by (unfold Num.modulus; lia).
  rewrite Z.shiftr_div_pow2 by lia. change (2 ^ 1) with 2.
  apply (IH (a + 2) (b - 1)); try lia.
  split; [apply Z.div_pos; lia|].
  apply Z.div_lt_upper_bound; lia.
Qed.

Lemma weave_grows r : forall res j, 0 < res -> 0 <= j -> res <= weave r res j.
Proof.
  induction r as [|r IH]; intros res j Hres Hj; cbn [weave]; [lia|].
  destruct (0 <? j); [|lia].
  pose proof (Z.mod_pos_bound j 2 ltac:(lia)).
  specialize (IH (4 * res + 2 * (j mod 2) + 1) (j / 2) ltac:(lia)
                 ltac:(apply Z.div_pos; lia)).
  lia.
Qed.

Lemma weave_bound r :
  forall a b res j,
  0 <= a -> 0 <= b -> 0 <= res < 2 ^ a -> 0 <= j < 2 ^ b ->
  0 <= weave r res j < 2 ^ (a + 2 * b).
Proof.
  induction r as [|r IH]; intros a b res j Ha Hb Hres Hj; cbn [weave].
  - assert (2 ^ a <= 2 ^ (a + 2 * b)) by (apply Z.pow_le_mono_r; lia). lia.
  - destruct (0 <? j) eqn:E.
    + apply Z.ltb_lt in E.
      assert (Hb1 : 1 <= b).
      { destruct (Z.eq_dec b 0) as [->|]; [change (2 ^ 0) with 1 in Hj; lia|lia]. }
      assert (Hp : 2 ^ (a + 2) = 4 * 2 ^ a)
        by (rewrite Z.pow_add_r by lia; change (2 ^ 2) with 4; lia).
      assert (Hq : 2 ^ b = 2 * 2 ^ (b - 1)).
      { replace b with (1 + (b - 1)) at 1 by lia.
        rewrite Z.pow_add_r by lia. reflexivity. }
      pose proof (Z.mod_pos_bound j 2 ltac:(lia)) as Hm.
      replace (a + 2 * b) with ((a + 2) + 2 * (b - 1)) by lia.
      apply IH; try lia.
      split; [apply Z.div_pos; lia|].
      apply Z.div_lt_upper_bound; lia.
    + assert (2 ^ a <= 2 ^ (a + 2 * b)) by (apply Z.pow_le_mono_r; lia). lia.
Qed.

(** [weave] keeps apart both the results so far and the numbers left, as
    long as the results so far have the same length. *)
Lemma weave_injective r :
  forall m res res' j j',
  0 <= m ->
  4 ^ m <= res < 2 * 4 ^ m -> 4 ^ m <= res' < 2 * 4 ^ m ->
  0 <= j < 2 ^ Z.of_nat r -> 0 <= j' < 2 ^ Z.of_nat r ->
  weave r res j = weave r res' j' ->
  res = res' /\ j = j'.
Proof.
  induction r as [|r IH]; intros m res res' j j' Hm Hres Hres' Hj Hj' H.
  - cbn [weave] in H. change (2 ^ Z.of_nat 0) with 1 in Hj, Hj'. lia.
  - assert (H4 : 0 < 4 ^ m) by (apply Z.pow_pos_nonneg; lia).
    assert (H4s : 4 ^ (m + 1) = 4 * 4 ^ m)
      by (rewrite Z.pow_add_r by lia; change (4 ^ 1) with 4; lia).
    assert (H2s : 2 ^ Z.of_nat (S r) = 2 * 2 ^ Z.of_nat r)
      by (rewrite Nat2Z.inj_succ, Z.pow_succ_r by lia; reflexivity).
    pose proof (Z.mod_pos_bound j 2 ltac:(lia)) as Hb.
    pose proof (Z.mod_pos_bound j' 2 ltac:(lia)) as Hb'.
    pose proof (Z.div_mod j 2 ltac:(lia)) as Dj.
    pose proof (Z.div_mod j' 2 ltac:(lia)) as Dj'.
    cbn [weave] in H.
    destruct (0 <? j) eqn:E; destruct (0 <? j') eqn:E';
      try apply Z.ltb_lt in E; try apply Z.ltb_lt in E';
      try apply Z.ltb_ge in E; try apply Z.ltb_ge in E'.
    + assert (R : 0 <= j / 2 < 2 ^ Z.of_nat r)
        by (split; [apply Z.div_pos; lia|apply Z.div_lt_upper_bound; lia]).
      assert (R' : 0 <= j' / 2 < 2 ^ Z.of_nat r)
        by (split; [apply Z.div_pos; lia|apply Z.div_lt_upper_bound; lia]).
      apply (IH (m + 1)) in H; lia.
    + pose proof (weave_grows r (4 * res + 2 * (j mod 2) + 1) (j / 2)
                    ltac:(lia) ltac:(apply Z.div_pos; lia)). lia.
    + pose proof (weave_grows r (4 * res' + 2 * (j' mod 2) + 1) (j' / 2)
                    ltac:(lia) ltac:(apply Z.div_pos; lia)). lia.
    + lia.
Qed.

Section Codes.

Variable log2 : float -> float.

(** X14. For one sub-array the codes of [phi] are distinct as long as
    nothing overflows: when the shift [s] computed for [i] leaves room for
    [i] (i < 2^(s+1)) and the attempts [j], [j'] are below 2^b with
    2 b + s + 2 <= 64, equal codes come from equal attempts. *)
Theorem phi_injective_in_j i s b j j' v :
  Num.to_size_t (log2 (Num.of_size_t (Num.wrap (i + 1)))) = Done s ->
  0 <= i < 2 ^ (s + 1) ->
  0 <= b -> 2 * b + s + 2 <= 64 ->
  0 <= j < 2 ^ b -> 0 <= j' < 2 ^ b ->
  phi log2 i j = Done v -> phi log2 i j' = Done v ->
  j = j'.
Proof.
  intros Hs Hi Hb Hfit Hj Hj' Hv Hv'.
  pose proof (to_size_t_range _ _ Hs) as Hsr.
  assert (Hcode : forall x, 0 <= x < 2 ^ b -> phi log2 i x = Done v ->
            v = weave 64 1 x * 2 ^ (s + 1) + i).
  { intros x Hx H. unfold phi in H. rewrite Hs in H. cbn [bind] in H.
    unfold Num.shl in H. destruct (s <? 64); [|discriminate].
    cbn [bind] in H. apply Done_inj in H. subst v.
    rewrite (interleave_weave 64 1 b) by
      (try lia; change (2 ^ 1) with 2; lia).
    pose proof (weave_bound 64 1 b 1 x ltac:(lia) Hb
                  ltac:(change (2 ^ 1) with 2; lia) Hx) as Hw.
    assert (Hp1 : 2 ^ (1 + 2 * b + 1) = 2 * 2 ^ (1 + 2 * b))
      by (rewrite (Z.pow_add_r 2 (1 + 2 * b) 1) by lia;
          change (2 ^ 1) with 2; lia).
    assert (Hp2 : 2 ^ (1 + 2 * b + 1 + s) = 2 ^ (1 + 2 * b + 1) * 2 ^ s)
      by (apply Z.pow_add_r; lia).
    assert (Hp3 : 2 ^ (s + 1) = 2 * 2 ^ s)
      by (rewrite Z.pow_add_r by lia; change (2 ^ 1) with 2; lia).
    assert (Hle : 2 ^ (1 + 2 * b + 1 + s) <= 2 ^ 64)
      by (apply Z.pow_le_mono_r; lia).
    assert (Hs0 : 0 < 2 ^ s) by (apply Z.pow_pos_nonneg; lia).
    rewrite (Z.shiftl_mul_pow2 _ 1) by lia. change (2 ^ 1) with 2.
    rewrite (wrap_small (weave 64 1 x * 2)) by (unfold Num.modulus; nia).
    rewrite Z.shiftl_mul_pow2 by lia.
    rewrite wrap_small by (unfold Num.modulus; nia).
    replace (weave 64 1 x * 2 * 2 ^ s) with (weave 64 1 x * 2 ^ (s + 1))
      by lia.
    apply lor_low; lia. }
  pose proof (Hcode j Hj Hv) as E. pose proof (Hcode j' Hj' Hv') as E'.
  assert (Hpos : 0 < 2 ^ (s + 1)) by (apply Z.pow_pos_nonneg; lia).
  assert (Hw : weave 64 1 j = weave 64 1 j') by nia.
  assert (Hbig : 2 ^ b <= 2 ^ Z.of_nat 64) by (apply Z.pow_le_mono_r; lia).
  apply (weave_injective 64 0 1 1 j j') in Hw; try lia;
    change (4 ^ 0) with 1; lia.
Qed.

End Codes.

(** ** The demonstration program and the life of a table *)

Section Lifecycle.

Variable log2 : float -> float.

(** X15. Construction and destruction balance: whatever allocation fails,
    [elastic_hash_init] returns the null handle with every block it had
    obtained freed again; when it returns a table all three allocations
    succeeded and the table is the one of the construction; and destroy
    frees exactly the blocks of the handle it is given, none for the null
    handle. *)
Theorem init_destroy_balance ok_handle ok_table ok_arrays heap n_ delta_ live
    h live' :
  elastic_hash_init_alloc log2 ok_handle ok_table ok_arrays heap n_ delta_ live
    = Done (h, live') ->
  elastic_hash_destroy h live' = live /\
  match h with
  | None => live' = live /\ (ok_handle && ok_table && ok_arrays = false)
  | Some eh =>
      live' = Arrays :: Table :: Handle :: live /\
      ok_handle && ok_table && ok_arrays = true /\
      elastic_hash_init log2 heap n_ delta_ = Done eh
  end.
Proof.
  unfold elastic_hash_init_alloc, elastic_hash_init; intros H.
  destruct ok_handle; cbn [negb] in H; [|injection H as <- <-; auto].
  bind_inv H. rewrite Ha. cbn [bind].
  destruct ok_table; cbn [negb] in H; [|injection H as <- <-; auto].
  bind_inv H. rewrite Ha0. cbn [bind].
  destruct ok_arrays; cbn [negb] in H; [|injection H as <- <-; auto].
  bind_inv H. rewrite Ha1. cbn [bind].
  destruct (fst a1 !! 0%nat) as [a2|]; [|discriminate].
  bind_inv H. rewrite Ha2. cbn [bind]. injection H as <- <-. auto.
Qed.

Lemma keys_from_S first cnt :
  keys_from first (S cnt) = first :: keys_from (first + 1) cnt.
Proof.
  unfold keys_from. cbn [seq map]. rewrite Z.add_0_r. f_equal.
  rewrite <- seq_shift, map_map. apply map_ext. intros k. lia.
Qed.

(** The loop of [main] is a sequence of insert calls that stops at the
    first [false]. *)
Lemma main_loop_spec cnt fuel :
  forall eh i out eh',
  main_loop log2 cnt fuel eh i = Done (out, eh') ->
  (out = [] /\
   insert_all log2 fuel eh (keys_from i cnt) = Done (repeat true cnt, eh')) \/
  (exists m, (m < cnt)%nat /\
     out = [Insertion_failed_at (i + Z.of_nat m)] /\
     insert_all log2 fuel eh (keys_from i (S m))
     = Done (repeat true m ++ [false], eh')).
Proof.
  induction cnt as [|c IH]; intros eh i out eh' H; cbn [main_loop] in H.
  - injection H as <- <-. left. auto.
  - bind_inv H. destruct a as [b e1]. cbn [fst snd] in H. destruct b.
    + destruct (IH _ _ _ _ H) as [(-> & Hall) | (m & Hm & -> & Hall)].
      * left. split; [reflexivity|].
        rewrite keys_from_S. cbn [insert_all]. rewrite Ha. cbn [bind snd].
        rewrite Hall. reflexivity.
      * right. exists (S m). split; [lia|]. split; [f_equal; f_equal; lia|].
        rewrite keys_from_S. cbn [insert_all]. rewrite Ha. cbn [bind snd].
        rewrite Hall. reflexivity.
    + injection H as <- <-. right. exists 0%nat.
      split; [lia|]. split; [f_equal; f_equal; lia|].
      rewrite keys_from_S. cbn [keys_from seq map insert_all].
      rewrite Ha. reflexivity.
Qed.

(** X16. What [main] prints is true of the table it leaves: the table comes
    from the construction with capacity 1024 and slack 0.1 followed by the
    insert calls for the keys from 1 on, all of which returned [true] up to
    900 or up to the first that returned [false], which is the one reported
    as failed; and a position is reported for the key 42 only if it is not
    negative and the slot there holds 42. *)
Theorem main_reports_the_table heap fuel out eh :
  main_run log2 heap fuel = Done (out, eh) ->
  exists failed found,
    out = failed ++ found /\
    ((failed = [] /\
      build log2 heap 1024 0.1 fuel (keys_from 1 900)
      = Done (repeat true 900, eh)) \/
     (exists m, (m < 900)%nat /\
        failed = [Insertion_failed_at (1 + Z.of_nat m)] /\
        build log2 heap 1024 0.1 fuel (keys_from 1 (S m))
        = Done (repeat true m ++ [false], eh))) /\
    (found = [] \/
     exists p, found = [Found_key_42_at_position p] /\ 0 <= p /\
               table eh !! Z.to_nat p = Some 42).
Proof.
  unfold main_run, build; intros H.
  bind_inv H. bind_inv H. bind_inv H. injection H as <- <-.
  destruct a0 as [failed e1]. cbn [fst snd] in *.
  exists failed, (if 0 <=? a1 then [Found_key_42_at_position a1] else []).
  split; [reflexivity|]. rewrite Ha. cbn [bind]. split.
  - destruct (main_loop_spec _ _ _ _ _ _ Ha0) as [(-> & Hall) | (m & Hm & -> & Hall)].
    + left. auto.
    + right. exists m. auto.
  - destruct (0 <=? a1) eqn:E; [|auto]. apply Z.leb_le in E. right.
    exists a1. split; [reflexivity|]. split; [assumption|].
    unfold elastic_hash_search in Ha1. apply search_loop_sound in Ha1.
    destruct Ha1 as [->|(i & j & pos & _ & _ & Hp & -> & Ht)]; [lia|].
    unfold probe_sequence in Hp. bind_inv Hp. bind_inv Hp. bind_inv Hp.
    injection Hp as <-.
    match goal with
    | |- context [Num.wrap ?z] => pose proof (wrap_range z) as Hr
    end.
    unfold to_ssize_t in *. unfold Num.modulus in *.
    match goal with
    | |- context [if ?c then _ else _] => destruct c
    end; [assumption|lia].
Qed.

End Lifecycle.

(** ** Instances of the further properties *)

Lemma keys_from_nonzero first cnt :
  0 < first -> Forall (fun k => k <> 0) (keys_from first cnt).
Proof.
  intros Hf. unfold keys_from. generalize (seq 0 cnt) as l.
  induction l as [|m l IH]; cbn [map]; constructor; [lia|assumption].
Qed.

Lemma search_sound_example :
  exists i j pos,
    0 <= i < num_arrays demo_table /\ 0 <= j /\
    probe_sequence Libm.log2 demo_table 42 i j = Done pos /\
    1004 = to_ssize_t pos /\ table demo_table !! Z.to_nat pos = Some 42.
Proof.
  destruct (search_sound Libm.log2 demo_table 42 1004
              ltac:(vm_compute; reflexivity)) as [H|H];
    [discriminate H|exact H].
Defined.

Ltac probe_meets_other :=
  eexists; eexists;
  (split; [vm_compute; reflexivity|]);
  (split; [vm_compute; reflexivity|]);
  split; discriminate.

Ltac budget :=
  eexists; split; [vm_compute; reflexivity|]; vm_compute; reflexivity.

Ltac no_probe :=
  exists 0, 0; split; [budget|];
  split; [lia|]; split; [intros; lia|left; reflexivity].

Ltac stops_at_first p :=
  exists 13, 0; split; [budget|];
  split; [lia|]; split; [intros; lia|];
  right; split; [discriminate|]; exists p;
  split; vm_compute; reflexivity.

Lemma search_not_found_example :
  elastic_hash_search Libm.log2 mixed_table 5000 = Done (-1).
Proof.
  apply (search_not_found Libm.log2 mixed_table 5000).
  - change (num_arrays mixed_table) with 24. lia.
  - intros i Hi. change (num_arrays mixed_table) with 24 in Hi.
    destruct (Z.ltb_spec i 5) as [Hlow|Hhigh].
    + assert (Hc : i = 0 \/ i = 1 \/ i = 2 \/ i = 3 \/ i = 4) by lia.
      destruct Hc as [-> | [-> | [-> | [-> | ->]]]].
      * exists 13, 13. split; [budget|]. split; [lia|].
        split; [|left; reflexivity].
        intros j Hj.
        assert (Hc : j = 0 \/ j = 1 \/ j = 2 \/ j = 3 \/ j = 4 \/ j = 5 \/
                     j = 6 \/ j = 7 \/ j = 8 \/ j = 9 \/ j = 10 \/ j = 11 \/
                     j = 12) by lia.
        destruct Hc as [-> | [-> | [-> | [-> | [-> | [-> | [-> | [-> | [-> |
                       [-> | [-> | [-> | ->]]]]]]]]]]]]; probe_meets_other.
      * stops_at_first 781.
      * stops_at_first 974.
      * exists 13, 2. split; [budget|]. split; [lia|]. split.
        -- intros j Hj. assert (Hc : j = 0 \/ j = 1) by lia.
           destruct Hc as [-> | ->]; probe_meets_other.
        -- right. split; [discriminate|]. exists 1015.
           split; vm_compute; reflexivity.
      * stops_at_first 1020.
    + assert (Hc : i = 5 \/ i = 6 \/ i = 7 \/ i = 8 \/ i = 9 \/ i = 10 \/
                   i = 11 \/ i = 12 \/ i = 13 \/ i = 14 \/ i = 15 \/ i = 16 \/
                   i = 17 \/ i = 18 \/ i = 19 \/ i = 20 \/ i = 21 \/ i = 22 \/
                   i = 23) by lia.
      destruct Hc as [-> | [-> | [-> | [-> | [-> | [-> | [-> | [-> | [-> |
                     [-> | [-> | [-> | [-> | [-> | [-> | [-> | [-> | [-> |
                     ->]]]]]]]]]]]]]]]]]]; no_probe.
Defined.

Lemma search_finds_example :
  elastic_hash_search Libm.log2 demo_table 42 = Done 1004 /\
  table demo_table !! 1004%nat = Some 42.
Proof.
  split; [|vm_compute; reflexivity].
  change (Done 1004) with (Done (A := Z) (to_ssize_t 1004)).
  apply (search_finds Libm.log2 demo_table 42 2 0 13 1004).
  - change (num_arrays demo_table) with 24. lia.
  - intros i' Hi'. assert (Hc : i' = 0 \/ i' = 1) by lia.
    destruct Hc as [-> | ->].
    + exists 13, 4.
      split; [eexists; split; [vm_compute; reflexivity|];
              vm_compute; reflexivity|].
      split; [lia|]. split.
      * intros j Hj.
        assert (Hc : j = 0 \/ j = 1 \/ j = 2 \/ j = 3) by lia.
        destruct Hc as [-> | [-> | [-> | ->]]]; probe_meets_other.
      * right. split; [discriminate|]. exists 132.
        split; [vm_compute; reflexivity|]. vm_compute; reflexivity.
    + exists 13, 0.
      split; [eexists; split; [vm_compute; reflexivity|];
              vm_compute; reflexivity|].
      split; [lia|]. split; [intros; lia|].
      right. split; [discriminate|]. exists 815.
      split; [vm_compute; reflexivity|]. vm_compute; reflexivity.
  - eexists. split; [vm_compute; reflexivity|]. vm_compute; reflexivity.
  - lia.
  - intros j' Hj'. lia.
  - split; [vm_compute; reflexivity|]. vm_compute; reflexivity.
Defined.

Lemma insert_true_effect_example :
  at_capacity zero_table = false /\
  table zero_table !! 1018%nat = Some 0 /\
  table zero_table_1 !! 1018%nat = Some 1 /\
  items zero_table_1 = 1.
Proof.
  destruct (insert_true_effect Libm.log2 1 zero_table 1 zero_table_1
              ltac:(vm_compute; reflexivity)) as (Hcap & _).
  split; [exact Hcap|]. repeat split; vm_compute; reflexivity.
Defined.

Lemma stored_keys_stay_example :
  length (table demo_table) = length (table zero_table_1) /\
  table demo_table !! 1018%nat = Some 1.
Proof.
  destruct (stored_keys_stay Libm.log2 5000 zero_table_1 (keys_from 2 899)
              (repeat true 899) demo_table ltac:(vm_compute; reflexivity))
    as [Hlen Hkeep].
  split; [exact Hlen|].
  apply (Hkeep 1018%nat 1); [vm_compute; reflexivity|discriminate].
Defined.

Lemma shape_is_fixed_example :
  length (table demo_table) = 1024%nat /\
  length (arrays demo_table) = 24%nat /\
  map size (arrays demo_table) = map size (arrays zero_table).
Proof.
  destruct (shape_is_fixed Libm.log2 zero_heap 1024 0.1 5000 (keys_from 1 900)
              (repeat true 900) demo_table ltac:(vm_compute; reflexivity))
    as (eh0 & Hinit & Hlen & Harr & _ & _ & _ & _ & _ & _ & Hsz).
  split; [exact Hlen|]. split; [exact Harr|].
  rewrite Hsz. vm_compute in Hinit. injection Hinit as <-. reflexivity.
Defined.

Lemma occupied_is_stored_example :
  occupied (table demo_table) = 900 /\ items demo_table = 900.
Proof.
  destruct (occupied_is_stored Libm.log2 zero_heap 1024 0.1 5000
              (keys_from 1 900) (repeat true 900) demo_table
              ltac:(vm_compute; reflexivity)
              (keys_from_nonzero 1 900 ltac:(lia)))
    as [Hocc Hitems].
  split; [exact Hocc|]. rewrite Hitems, Hocc. reflexivity.
Defined.

Lemma insert_zero_key_example :
  table zero_table_0 = table zero_table /\ items zero_table_0 = 1.
Proof.
  apply (insert_zero_key Libm.log2 1 zero_table zero_table_0).
  vm_compute; reflexivity.
Defined.

Lemma init_beta_zero_example :
  elastic_hash_init Libm.log2 zero_heap 4 0.9 = Fault DivByZero.
Proof.
  apply (init_beta_zero Libm.log2 zero_heap 4 0.9 11).
  - vm_compute; reflexivity.
  - vm_compute; reflexivity.
  - lia.
Defined.

Lemma stale_table_untouched : Forall untouched (arrays stale_table).
Proof.
  unfold stale_table; cbn [arrays].
  repeat (apply List.Forall_cons; [split; vm_compute; reflexivity|]).
  apply List.Forall_nil.
Defined.

Lemma insert_into_untouched_example :
  elastic_hash_insert Libm.log2 7 stale_table 5 = Done (false, stale_table_1).
Proof.
  rewrite (insert_into_untouched Libm.log2 0.1
             ltac:(vm_compute; reflexivity) ltac:(vm_compute; reflexivity)
             ltac:(vm_compute; reflexivity)
             7 stale_table 5 0
             ltac:(reflexivity) stale_table_untouched
             ltac:(vm_compute; reflexivity) ltac:(vm_compute; reflexivity)
             ltac:(vm_compute; reflexivity)).
  vm_compute; reflexivity.
Defined.

Lemma search_in_untouched_example :
  elastic_hash_search Libm.log2 stale_table 42 = Done (-1).
Proof.
  apply (search_in_untouched Libm.log2 0.1
           ltac:(vm_compute; reflexivity) ltac:(vm_compute; reflexivity)
           stale_table 42
           ltac:(reflexivity) stale_table_untouched
           ltac:(vm_compute; reflexivity)).
  change (num_arrays stale_table) with 24. lia.
Defined.

Lemma insert_first_empty_probe_example :
  (probe_sequence Libm.log2 demo_table 1004 0 0 = Done 238 /\
   table_get demo_table 238 = Done 236) /\
  (probe_sequence Libm.log2 demo_table 1004 0 1 = Done 226 /\
   table_get demo_table 226 = Done 224) /\
  probes_empty Libm.log2 demo_table 1004 0 2 194 /\
  table demo_table_1004 !! 194%nat = Some 1004 /\
  exists i j pos,
    0 <= i < num_arrays demo_table /\ 0 <= j /\
    probes_empty Libm.log2 demo_table 1004 i j pos /\
    (forall j', 0 <= j' < j ->
       probes_occupied Libm.log2 demo_table 1004 i j') /\
    table demo_table_1004 = <[Z.to_nat pos := 1004]> (table demo_table).
Proof.
  split; [split; vm_compute; reflexivity|].
  split; [split; vm_compute; reflexivity|].
  split; [split; vm_compute; reflexivity|].
  split; [vm_compute; reflexivity|].
  apply (insert_first_empty_probe Libm.log2 50 demo_table 1004
           demo_table_1004).
  vm_compute; reflexivity.
Defined.

Lemma written_probes_in_table_example :
  exists a pos v,
    get_array demo_table 2 = Done a /\
    probe_sequence Libm.log2 demo_table 42 2 0 = Done pos /\
    start a <= pos < start a + size a /\ 0 <= pos < 1024 /\
    table_get demo_table pos = Done v.
Proof.
  apply (written_probes_in_table Libm.log2 zero_heap 1024 0.1 6
           (arrays zero_table) 4 5000 (keys_from 1 900) (repeat true 900)
           demo_table) with (h := 6).
  - vm_compute; reflexivity.
  - lia.
  - lia.
  - lia.
  - vm_compute; reflexivity.
  - vm_compute; reflexivity.
  - lia.
  - vm_compute; reflexivity.
Defined.

Lemma phi_injective_in_j_example :
  phi Libm.log2 2 5 = Done 478 /\ 5 = 5.
Proof.
  split; [vm_compute; reflexivity|].
  apply (phi_injective_in_j Libm.log2 2 1 30 5 5 478).
  - vm_compute; reflexivity.
  - change (2 ^ (1 + 1)) with 4. lia.
  - lia.
  - lia.
  - change (2 ^ 30) with 1073741824. lia.
  - change (2 ^ 30) with 1073741824. lia.
  - vm_compute; reflexivity.
  - vm_compute; reflexivity.
Defined.

Lemma init_destroy_balance_example :
  elastic_hash_init_alloc Libm.log2 true true true zero_heap 1024 0.1 []
    = Done (Some zero_table, [Arrays; Table; Handle]) /\
  elastic_hash_destroy (Some zero_table) [Arrays; Table; Handle] = [].
Proof.
  split; [vm_compute; reflexivity|].
  apply (init_destroy_balance Libm.log2 true true true zero_heap 1024 0.1 []
           (Some zero_table) [Arrays; Table; Handle]).
  vm_compute; reflexivity.
Defined.

Lemma main_reports_the_table_example :
  main_run Libm.log2 zero_heap 5000
    = Done ([Found_key_42_at_position 1004], demo_table) /\
  exists failed found,
    [Found_key_42_at_position 1004] = failed ++ found /\
    ((failed = [] /\
      build Libm.log2 zero_heap 1024 0.1 5000 (keys_from 1 900)
      = Done (repeat true 900, demo_table)) \/
     (exists m, (m < 900)%nat /\
        failed = [Insertion_failed_at (1 + Z.of_nat m)] /\
        build Libm.log2 zero_heap 1024 0.1 5000 (keys_from 1 (S m))
        = Done (repeat true m ++ [false], demo_table))) /\
    (found = [] \/
     exists p, found = [Found_key_42_at_position p] /\ 0 <= p /\
               table demo_table !! Z.to_nat p = Some 42).
Proof.
  split; [vm_compute; reflexivity|].
  apply (main_reports_the_table Libm.log2 zero_heap 5000).
  vm_compute; reflexivity.
Defined.
